(** * go-ini: the decode direction of the bind engine (decode.go)

    A shallow embedding of [decode], [decodeStruct], [decodeSlice],
    [decodeMap] and the scalar decoders of decode.go, over a small model
    of the part of Go's [reflect] and [strconv] packages they use; then
    the encoder as the specification describes it, and the round trip
    through both. *)

From Stdlib Require Import ZArith Lia Ascii.
From stdpp Require Import base option list gmap strings.

Set Warnings "-register-all".
Open Scope Z_scope.

(** ** reflect: kinds, types and values *)

Module reflect.
(** The constants of [reflect.Kind]. *)
Inductive Kind :=
  | Invalid | Bool
  | Int | Int8 | Int16 | Int32 | Int64
  | Uint | Uint8 | Uint16 | Uint32 | Uint64 | Uintptr
  | Float32 | Float64 | Complex64 | Complex128
  | Array | Chan | Func | Interface | Map | Ptr | Slice | String | Struct
  | UnsafePointer.
End reflect.

(** [reflect.StructField] of an exported field (reflect refuses to set
    any other): the declared name, the field's tag read as the
    specification describes it (an explicit name override, if any, and
    the optional-field marker), and the type. *)
Record StructField (T : Type) := mkField {
  Name : string;
  Override : option string;
  Omitempty : bool;
  Type_ : T
}.
Arguments mkField {T}.
Arguments Name {T}.
Arguments Override {T}.
Arguments Omitempty {T}.
Arguments Type_ {T}.

(** Kinds of types whose structure the decoder never looks into.
    Interface types are left out of the model. *)
Inductive opaque :=
  | uintptr | complex64 | complex128 | array | chan | func | unsafePointer.

(** Go types.  [int] and [uint] are 64 bits wide (a 64-bit platform). *)
Inductive type :=
  | bool_
  | int | int8 | int16 | int32 | int64
  | uint | uint8 | uint16 | uint32 | uint64
  | float32 | float64
  | string_
  | SliceOf (elem : type)
  | MapOf (key elem : type)
  | PtrTo (elem : type)
  | StructOf (fields : list (StructField type))
  | Opaque (o : opaque).

Definition Kind (t : type) : reflect.Kind :=
  match t with
  | bool_ => reflect.Bool
  | int => reflect.Int | int8 => reflect.Int8 | int16 => reflect.Int16
  | int32 => reflect.Int32 | int64 => reflect.Int64
  | uint => reflect.Uint | uint8 => reflect.Uint8 | uint16 => reflect.Uint16
  | uint32 => reflect.Uint32 | uint64 => reflect.Uint64
  | float32 => reflect.Float32 | float64 => reflect.Float64
  | string_ => reflect.String
  | SliceOf _ => reflect.Slice
  | MapOf _ _ => reflect.Map
  | PtrTo _ => reflect.Ptr
  | StructOf _ => reflect.Struct
  | Opaque uintptr => reflect.Uintptr
  | Opaque complex64 => reflect.Complex64
  | Opaque complex128 => reflect.Complex128
  | Opaque array => reflect.Array
  | Opaque chan => reflect.Chan
  | Opaque func => reflect.Func
  | Opaque unsafePointer => reflect.UnsafePointer
  end.

(** [Type.Elem()]: defined on slices, maps and pointers; it panics on
    every other kind of this model ([None]). *)
Definition Elem (t : type) : option type :=
  match t with
  | SliceOf e | MapOf _ e | PtrTo e => Some e
  | _ => None
  end.

(** Width in bits of the integer kinds ([Type.Bits()]). *)
Definition Bits (t : type) : Z :=
  match t with
  | int8 | uint8 => 8
  | int16 | uint16 => 16
  | int32 | uint32 | float32 => 32
  | _ => 64
  end.

(** ** Errors *)

(** [UnmarshalTypeError]; decode.go never sets its [str] and [fld]. *)
Record UnmarshalTypeError := mkError {
  val : string;
  typ : type
}.

(** A non-nil [error]: an [*UnmarshalTypeError], or whatever else a
    lookup of the parse tree may return. *)
Inductive error :=
  | TypeError (e : UnmarshalTypeError)
  | OtherError (msg : string).

(** ** The parse tree

    decode.go reads the fields [global] of a parseTree, [name] of a
    section and [vals] of a property; the file that declares the three
    types is not among the sources, and the rest of each record follows
    section 3 of the specification. *)

(** Modelled from the spec: the [property] record.  [vals] maps a map-key
    (empty for a plain [key=value] line) to the raw values seen for it,
    in source order. *)
Record property := mkProperty {
  key : string;
  vals : gmap string (list string)
}.

(** Modelled from the spec: the [section] record, an ordered mapping from
    property key to property. *)
Record section := mkSection {
  name : string;
  props : list (string * property)
}.

(** Modelled from the spec: the [parseTree] record, the global properties
    and an ordered mapping from section name to the instances of that
    name. *)
Record parseTree := mkTree {
  global : section;
  sections : list (string * list section)
}.

(** The result of [newTag]; decode.go reads its [name]. *)
Record tag := mkTag { tag_name : string; tag_omitempty : bool }.

(** The four functions decode.go calls that are not among the sources:
    [tree.get(name)], [s.get(key)], [prop.get(mapkey)] and [newTag(sf)].
    The decoder is defined, and its properties are proved, for every
    implementation of them. *)
Record Lookups := mkLookups {
  parseTree_get : parseTree -> string -> list section + error;
  section_get : section -> string -> property + error;
  property_get : property -> string -> list string;
  newTag : StructField type -> tag
}.

(** First binding of [k] in an ordered mapping. *)
Fixpoint assoc {A : Type} (k : string) (l : list (string * A)) : option A :=
  match l with
  | [] => None
  | (k', a) :: l' => if String.eqb k k' then Some a else assoc k l'
  end.

Definition newProperty (k : string) : property := mkProperty k ∅.

(** Modelled from the spec: the lookups as sections 3 and 4.1 describe
    them.  "Lookups that find nothing return an empty result, not an
    error": an absent key yields a property without values, an absent
    section name no instance; the wildcard name selects every section in
    tree order; the effective name of a field is the explicit override
    when there is one and the declared name otherwise. *)
Definition specLookups : Lookups := {|
  parseTree_get t n :=
    inl (if String.eqb n "*" then concat (snd <$> sections t)
         else default [] (assoc n (sections t)));
  section_get s k := inl (default (newProperty k) (assoc k (props s)));
  property_get p mapkey := default [] (vals p !! mapkey);
  newTag sf := mkTag (default (Name sf) (Override sf)) (Omitempty sf)
|}.

(** ** strconv *)

Module strconv.
Definition isDigit (c : ascii) : bool :=
  let n := Ascii.nat_of_ascii c in ((48 <=? n) && (n <=? 57))%nat.

Definition digit (c : ascii) : Z := Z.of_nat (Ascii.nat_of_ascii c) - 48.

(** Value of a string of decimal digits, [None] on any other byte.
    In base 10 neither letters nor underscores are accepted. *)
Fixpoint digits (acc : Z) (s : string) : option Z :=
  match s with
  | EmptyString => Some acc
  | String.String c s' =>
      if isDigit c then digits (10 * acc + digit c) s' else None
  end.

(** [strconv.ParseUint(s, 10, 64)]: [None] stands for a non-nil error
    (ErrSyntax for the empty string or a non-digit, ErrRange for a value
    of 2^64 or more). *)
Definition ParseUint (s : string) : option Z :=
  match s with
  | EmptyString => None
  | _ => match digits 0 s with
         | Some n => if n <? 2 ^ 64 then Some n else None
         | None => None
         end
  end.

(** [strconv.ParseInt(s, 10, 64)]: an optional sign, then digits; the
    magnitude must fit in 64 signed bits. *)
Definition ParseInt (s : string) : option Z :=
  match s with
  | EmptyString => None
  | String.String c s' =>
      let neg := Ascii.eqb c "-" in
      let body := if Ascii.eqb c "+" || neg then s' else s in
      match body with
      | EmptyString => None
      | _ => match digits 0 body with
             | Some un =>
                 if negb neg && (2 ^ 63 <=? un) then None
                 else if neg && (2 ^ 63 <? un) then None
                 else Some (if neg then - un else un)
             | None => None
             end
      end
  end.

(** [strconv.ParseBool]. *)
Definition ParseBool (s : string) : option bool :=
  if bool_decide (s ∈ ["1"; "t"; "T"; "TRUE"; "true"; "True"]) then Some true
  else if bool_decide (s ∈ ["0"; "f"; "F"; "FALSE"; "false"; "False"])
       then Some false
       else None.
End strconv.

(** [strconv.ParseFloat(s, 64)], the conversion [float32(x)] and the
    float zero are taken as an interface: binary floating point is not
    modelled. *)
Record Floats := mkFloats {
  float : Type;
  ParseFloat : string -> option float;
  to_float32 : float -> float;
  float_zero : float
}.

Section Decode.
Variable F : Floats.
Variable L : Lookups.

(** ** Go values *)

Inductive value :=
  | VBool (b : bool)
  | VInt (n : Z)
  | VUint (n : Z)
  | VFloat (f : float F)
  | VString (s : string)
  | VSlice (elems : option (list value))           (* [None] is the nil slice *)
  | VMap (entries : option (gmap string value))    (* [None] is the nil map *)
  | VPtr (pointee : option value)                  (* [None] is the nil pointer *)
  | VStruct (fields : list value)
  | VOpaque (payload : nat).

(** The zero value of a type. *)
Fixpoint Zero (t : type) : value :=
  match t with
  | bool_ => VBool false
  | int | int8 | int16 | int32 | int64 => VInt 0
  | uint | uint8 | uint16 | uint32 | uint64 => VUint 0
  | float32 | float64 => VFloat (float_zero F)
  | string_ => VString ""
  | SliceOf _ => VSlice None
  | MapOf _ _ => VMap None
  | PtrTo _ => VPtr None
  | StructOf fields => VStruct (List.map (fun sf => Zero (Type_ sf)) fields)
  | Opaque _ => VOpaque 0
  end.

(** [reflect.Value]: the zero Value, or a value with its type.  A pointer
    carries its pointee, so that a store through it is the pointer with
    a new pointee. *)
Inductive Value :=
  | InvalidValue
  | Val (t : type) (v : value).

(** [Value.Type()] panics on the zero Value ([None]). *)
Definition Value_Type (rv : Value) : option type :=
  match rv with
  | InvalidValue => None
  | Val t _ => Some t
  end.

(** [Value.Addr()] of an addressable value of type [t]. *)
Definition Addr (t : type) (v : value) : Value := Val (PtrTo t) (VPtr (Some v)).

(** The value a pointer Value points to, [old] when there is none. *)
Definition pointee (old : value) (rv : Value) : value :=
  match rv with
  | Val _ (VPtr (Some v)) => v
  | _ => old
  end.

(** The dynamic values this package passes as [interface{}]. *)
Inductive interface :=
  | of_string (s : string)
  | of_strings (l : list string)
  | of_section (s : section)
  | of_sections (l : list section)
  | of_property (p : property)
  | of_parseTree (t : parseTree).

(** [reflect.TypeOf(i).Kind()]. *)
Definition TypeOf_Kind (i : interface) : reflect.Kind :=
  match i with
  | of_string _ => reflect.String
  | of_strings _ | of_sections _ => reflect.Slice
  | of_section _ | of_property _ | of_parseTree _ => reflect.Struct
  end.

(** [reflect.ValueOf(i).String()]: the string itself for a string, and
    the type between angle brackets for everything else. *)
Definition ValueOf_String (i : interface) : string :=
  match i with
  | of_string s => s
  | of_strings _ => "<[]string Value>"
  | of_section _ => "<ini.section Value>"
  | of_sections _ => "<[]ini.section Value>"
  | of_property _ => "<ini.property Value>"
  | of_parseTree _ => "<ini.parseTree Value>"
  end.

(** How a call ends: it returns an [error] ([None] is nil), or panics. *)
Inductive outcome :=
  | Return (err : option error)
  | Panic.

Definition typeError (i : interface) (t : type) : outcome :=
  Return (Some (TypeError (mkError (ValueOf_String i) t))).

(** Two's complement wrap-around of the conversions [intN(x)], [uintN(x)]. *)
Definition wrap_signed (bits x : Z) : Z :=
  (x + 2 ^ (bits - 1)) mod 2 ^ bits - 2 ^ (bits - 1).
Definition wrap_unsigned (bits x : Z) : Z := x mod 2 ^ bits.

(** [rv.Elem().SetString(x)] and its siblings.  They panic when [rv] is
    not a non-nil pointer or the pointee has another kind; SetInt, SetUint
    and SetFloat convert to the pointee's width without a range check. *)
Definition Elem_Set (rv : Value) (conv : type -> option value) : Value * outcome :=
  match rv with
  | Val (PtrTo t) (VPtr (Some _)) =>
      match conv t with
      | Some v' => (Val (PtrTo t) (VPtr (Some v')), Return None)
      | None => (rv, Panic)
      end
  | _ => (rv, Panic)
  end.

Definition Elem_SetString (rv : Value) (x : string) : Value * outcome :=
  Elem_Set rv (fun t => match Kind t with
                        | reflect.String => Some (VString x)
                        | _ => None
                        end).

Definition Elem_SetInt (rv : Value) (x : Z) : Value * outcome :=
  Elem_Set rv (fun t => match Kind t with
                        | reflect.Int | reflect.Int8 | reflect.Int16
                        | reflect.Int32 | reflect.Int64 =>
                            Some (VInt (wrap_signed (Bits t) x))
                        | _ => None
                        end).

Definition Elem_SetUint (rv : Value) (x : Z) : Value * outcome :=
  Elem_Set rv (fun t => match Kind t with
                        | reflect.Uint | reflect.Uint8 | reflect.Uint16
                        | reflect.Uint32 | reflect.Uint64 | reflect.Uintptr =>
                            Some (VUint (wrap_unsigned (Bits t) x))
                        | _ => None
                        end).

Definition Elem_SetBool (rv : Value) (x : bool) : Value * outcome :=
  Elem_Set rv (fun t => match Kind t with
                        | reflect.Bool => Some (VBool x)
                        | _ => None
                        end).

Definition Elem_SetFloat (rv : Value) (x : float F) : Value * outcome :=
  Elem_Set rv (fun t => match Kind t with
                        | reflect.Float32 => Some (VFloat (to_float32 F x))
                        | reflect.Float64 => Some (VFloat x)
                        | _ => None
                        end).

(** ** The scalar decoders *)

(** The guard shared by the five scalar decoders: [i] must hold a string
    and [rv] must be a pointer. *)
Definition scalarGuard (i : interface) (rv : Value)
    (body : string -> type -> Value * outcome) : Value * outcome :=
  match Value_Type rv with
  | None => (rv, Panic)
  | Some t =>
      match i, Kind t with
      | of_string s, reflect.Ptr => body s t
      | _, _ => (rv, typeError i t)
      end
  end.

Definition decodeString (i : interface) (rv : Value) : Value * outcome :=
  scalarGuard i rv (fun s _ => Elem_SetString rv s).

Definition decodeInt (i : interface) (rv : Value) : Value * outcome :=
  scalarGuard i rv (fun s t =>
    match strconv.ParseInt s with
    | None => (rv, typeError i t)
    | Some n => Elem_SetInt rv n
    end).

Definition decodeUint (i : interface) (rv : Value) : Value * outcome :=
  scalarGuard i rv (fun s t =>
    match strconv.ParseUint s with
    | None => (rv, typeError i t)
    | Some n => Elem_SetUint rv n
    end).

Definition decodeBool (i : interface) (rv : Value) : Value * outcome :=
  scalarGuard i rv (fun s t =>
    match strconv.ParseBool s with
    | None => (rv, typeError i t)
    | Some n => Elem_SetBool rv n
    end).

Definition decodeFloat (i : interface) (rv : Value) : Value * outcome :=
  scalarGuard i rv (fun s t =>
    match ParseFloat F s with
    | None => (rv, typeError i t)
    | Some n => Elem_SetFloat rv n
    end).

(** ** Slices *)

Definition decoder := interface -> Value -> Value * outcome.

(** The elements [reflect.ValueOf(v).Index(i).Interface()] of a slice. *)
Definition elements (v : interface) : list interface :=
  match v with
  | of_strings l => of_string <$> l
  | of_sections l => of_section <$> l
  | _ => []
  end.

(** The switch of decodeSlice on the element kind. *)
Definition sliceDecoderFunc (decodeStruct : decoder) (k : reflect.Kind)
  : option decoder :=
  match k with
  | reflect.String => Some decodeString
  | reflect.Int | reflect.Int8 | reflect.Int16 | reflect.Int32
  | reflect.Int64 => Some decodeInt
  | reflect.Uint | reflect.Uint8 | reflect.Uint16 | reflect.Uint32
  | reflect.Uint64 => Some decodeUint
  | reflect.Struct => Some decodeStruct
  | reflect.Float32 | reflect.Float64 => Some decodeFloat
  | reflect.Bool => Some decodeBool
  | _ => None
  end.

(** The loop of decodeSlice over the fresh slice [vv]: element [i] starts
    as the zero value and receives [v[i]]; the first failure ends it. *)
Fixpoint decodeElems (decoderFunc : decoder) (elem : type)
    (vals : list interface) : list value * outcome :=
  match vals with
  | [] => ([], Return None)
  | val :: rest =>
      let '(sv, r) := decoderFunc val (Addr elem (Zero elem)) in
      match r with
      | Return None =>
          let '(vs, r') := decodeElems decoderFunc elem rest in
          (pointee (Zero elem) sv :: vs, r')
      | _ => ([], r)
      end
  end.

(** decodeSlice, open in the decoder it uses for struct elements. *)
Definition decodeSlice_ (decodeStruct : decoder) (v : interface) (rv : Value)
  : Value * outcome :=
  match Value_Type rv with
  | None => (rv, Panic)
  | Some t =>
      match TypeOf_Kind v, Kind t with
      | reflect.Slice, reflect.Ptr =>
          match rv with
          | Val (PtrTo st) (VPtr (Some _)) =>
              match Elem st with
              | None => (rv, Panic)
              | Some elem =>
                  match sliceDecoderFunc decodeStruct (Kind elem) with
                  | None => (rv, typeError v st)
                  | Some decoderFunc =>
                      match st with
                      | SliceOf _ =>
                          let '(vv, r) :=
                            decodeElems decoderFunc elem (elements v) in
                          match r with
                          | Return None =>
                              (Val (PtrTo st) (VPtr (Some (VSlice (Some vv)))),
                               Return None)
                          | _ => (rv, r)
                          end
                      | _ => (rv, Panic)   (* reflect.MakeSlice of non-slice type *)
                      end
                  end
              end
          | _ => (rv, Panic)               (* Elem() of a nil pointer *)
          end
      | _, _ => (rv, typeError v t)
      end
  end.

(** ** Maps *)

(** The switch of decodeMap on the element kind: it has no case for
    reflect.Slice. *)
Definition mapDecoderFunc (k : reflect.Kind) : option decoder :=
  match k with
  | reflect.String => Some decodeString
  | reflect.Int | reflect.Int8 | reflect.Int16 | reflect.Int32
  | reflect.Int64 => Some decodeInt
  | reflect.Uint | reflect.Uint8 | reflect.Uint16 | reflect.Uint32
  | reflect.Uint64 => Some decodeUint
  | reflect.Float32 | reflect.Float64 => Some decodeFloat
  | reflect.Bool => Some decodeBool
  | _ => None
  end.

(** The loop [for k, v := range p.vals] of decodeMap, over one
    enumeration [kvs] of the entries, filling the fresh map [vv].
    [v[0]] panics on an empty sequence, and SetMapIndex panics unless the
    key type of the map is string. *)
Fixpoint decodeEntries (decoderFunc : decoder) (key elem : type)
    (kvs : list (string * list string)) (vv : gmap string value)
  : gmap string value * outcome :=
  match kvs with
  | [] => (vv, Return None)
  | (k, v) :: rest =>
      let mv := Addr elem (Zero elem) in
      let val :=
        match Kind elem with
        | reflect.Slice => Some (of_strings v)
        | _ => of_string <$> head v
        end in
      match val with
      | None => (vv, Panic)
      | Some val =>
          let '(mv', r) := decoderFunc val mv in
          match r with
          | Return None =>
              match key with
              | string_ =>
                  decodeEntries decoderFunc key elem rest
                    (<[k := pointee (Zero elem) mv']> vv)
              | _ => (vv, Panic)
              end
          | _ => (vv, r)
          end
      end
  end.

(** decodeMap.  Go leaves the order of [range] over a map open;
    [map_to_list] is one enumeration, and the lemmas on [decodeEntries]
    are stated for every enumeration. *)
Definition decodeMap (i : interface) (rv : Value) : Value * outcome :=
  match Value_Type rv with
  | None => (rv, Panic)
  | Some t =>
      match i, Kind t with
      | of_property p, reflect.Ptr =>
          match rv with
          | Val (PtrTo mt) (VPtr (Some _)) =>
              match Elem mt with
              | None => (rv, Panic)
              | Some elem =>
                  match mapDecoderFunc (Kind elem) with
                  | None => (rv, typeError i mt)
                  | Some decoderFunc =>
                      match mt with
                      | MapOf key _ =>
                          let '(vv, r) :=
                            decodeEntries decoderFunc key elem
                              (map_to_list (vals p)) ∅ in
                          match r with
                          | Return None =>
                              (Val (PtrTo mt) (VPtr (Some (VMap (Some vv)))),
                               Return None)
                          | _ => (rv, r)
                          end
                      | _ => (rv, Panic)   (* reflect.MakeMap of non-map type *)
                      end
                  end
              end
          | _ => (rv, Panic)
          end
      | _, _ => (rv, typeError i t)
      end
  end.

(** ** Structs *)

(** A loop [for i := 0; i < rv.NumField(); i++] whose body works on field
    [i] alone: [step] returns the field's new value and how the body
    ended; a non-nil error or a panic leaves the loop. *)
Fixpoint forFields (step : StructField type -> value -> value * outcome)
    (fields : list (StructField type)) (vs : list value)
  : list value * outcome :=
  match fields, vs with
  | sf :: fields', v :: vs' =>
      let '(v', r) := step sf v in
      match r with
      | Return None =>
          let '(vs'', r') := forFields step fields' vs' in (v' :: vs'', r')
      | _ => (v' :: vs', r)
      end
  | _, _ => (vs, Return None)
  end.

(** What a call on [sv := rv.Field(i).Addr()] leaves in the field. *)
Definition through (fv : value) (res : Value * outcome) : value * outcome :=
  (pointee fv res.1, res.2).

(** The body shared by the int, uint, float and bool cases of
    decodeStruct, and by the string case of a field not named ININame. *)
Definition decodeProp (decoderFunc : decoder) (s : section) (t : tag)
    (ft : type) (fv : value) : value * outcome :=
  match section_get L s (tag_name t) with
  | inr err => (fv, Return (Some err))
  | inl prop =>
      if bool_decide (size (vals prop) = 0%nat) then (fv, Return None)
      else match property_get L prop "" with
           | [] => (fv, Panic)              (* vals[0]: index out of range *)
           | val :: _ => through fv (decoderFunc (of_string val) (Addr ft fv))
           end
  end.

(** The body of the loop of decodeStruct. *)
Definition decodeField (decodeSlice : decoder) (s : section)
    (sf : StructField type) (fv : value) : value * outcome :=
  let sv := Addr (Type_ sf) fv in
  let t := newTag L sf in
  if String.eqb (tag_name t) "-" then (fv, Return None)
  else
    match Kind (Type_ sf) with
    | reflect.Slice =>
        match Kind <$> Elem (Type_ sf) with
        | Some reflect.Struct => (fv, Return None)
        | _ =>
            match section_get L s (tag_name t) with
            | inr err => (fv, Return (Some err))
            | inl prop =>
                let val := property_get L prop "" in
                if bool_decide (length val = 0%nat) then (fv, Return None)
                else through fv (decodeSlice (of_strings val) sv)
            end
        end
    | reflect.Map =>
        match Kind <$> Elem (Type_ sf) with
        | Some reflect.Struct => (fv, Return None)
        | _ =>
            match section_get L s (tag_name t) with
            | inr err => (fv, Return (Some err))
            | inl prop => through fv (decodeMap (of_property prop) sv)
            end
        end
    | reflect.String =>
        if String.eqb (Name sf) "ININame"
        then through fv (decodeString (of_string (name s)) sv)
        else decodeProp decodeString s t (Type_ sf) fv
    | reflect.Int | reflect.Int8 | reflect.Int16 | reflect.Int32
    | reflect.Int64 => decodeProp decodeInt s t (Type_ sf) fv
    | reflect.Uint | reflect.Uint8 | reflect.Uint16 | reflect.Uint32
    | reflect.Uint64 => decodeProp decodeUint s t (Type_ sf) fv
    | reflect.Float32 | reflect.Float64 =>
        decodeProp decodeFloat s t (Type_ sf) fv
    | reflect.Bool => decodeProp decodeBool s t (Type_ sf) fv
    | _ => (fv, Return None)
    end.

(** decodeStruct, open in the decodeSlice it calls. *)
Definition decodeStruct_ (decodeSlice : decoder) (i : interface) (rv : Value)
  : Value * outcome :=
  match Value_Type rv with
  | None => (rv, Panic)
  | Some t =>
      match i, Kind t with
      | of_section s, reflect.Ptr =>
          match rv with
          | Val (PtrTo (StructOf fields)) (VPtr (Some (VStruct vs))) =>
              let '(vs', r) := forFields (decodeField decodeSlice s) fields vs in
              (Val (PtrTo (StructOf fields)) (VPtr (Some (VStruct vs'))), r)
          | _ => (rv, Panic)               (* NumField of a non-struct *)
          end
      | _, _ => (rv, typeError i t)
      end
  end.

(** decodeStruct and decodeSlice call each other.  Inside decodeStruct a
    slice of structs is skipped before decodeSlice is reached, so the
    decodeSlice it calls never needs a struct decoder: the recursion is
    closed in two steps, and [decodeStruct_unfold] below gives back the
    equation of the source. *)
Definition decodeStruct : decoder :=
  decodeStruct_ (decodeSlice_ (fun _ rv => (rv, Panic))).

Definition decodeSlice : decoder := decodeSlice_ decodeStruct.

(** ** decode *)

(** The body of the loop of decode over the top-level fields. *)
Definition decodeSection (tree : parseTree) (sf : StructField type)
    (fv : value) : value * outcome :=
  let sv := Addr (Type_ sf) fv in
  let t := newTag L sf in
  if String.eqb (tag_name t) "-" then (fv, Return None)
  else
    match Kind (Type_ sf) with
    | reflect.Struct =>
        match parseTree_get L tree (tag_name t) with
        | inr err => (fv, Return (Some err))
        | inl sectionGroup =>
            match sectionGroup with
            | [] => (fv, Return None)
            | val :: _ => through fv (decodeStruct (of_section val) sv)
            end
        end
    | reflect.Slice =>
        match Kind <$> Elem (Type_ sf) with
        | Some reflect.Struct =>
            match parseTree_get L tree (tag_name t) with
            | inr err => (fv, Return (Some err))
            | inl val =>
                if bool_decide (length val = 0%nat) then (fv, Return None)
                else through fv (decodeSlice (of_sections val) sv)
            end
        | _ => (fv, Return None)
        end
    | _ => (fv, Return None)
    end.

Definition decode (tree : parseTree) (rv : Value) : Value * outcome :=
  match Value_Type rv with
  | None => (rv, Panic)
  | Some t =>
      match Kind t with
      | reflect.Ptr =>
          match rv with
          | Val (PtrTo st) (VPtr (Some v)) =>
              match Kind st with
              | reflect.Struct =>
                  let '(rv1, r) :=
                    decodeStruct (of_section (global tree)) (Addr st v) in
                  match r with
                  | Return None =>
                      match st, pointee v rv1 with
                      | StructOf fields, VStruct vs =>
                          let '(vs', r') :=
                            forFields (decodeSection tree) fields vs in
                          (Val (PtrTo st) (VPtr (Some (VStruct vs'))), r')
                      | _, _ => (rv1, Panic)
                      end
                  | _ => (rv1, r)
                  end
              | _ => (rv, typeError (of_parseTree tree) st)
              end
          | _ => (rv, Panic)       (* Indirect of a nil pointer has no Type *)
          end
      | _ => (rv, typeError (of_parseTree tree) t)
      end
  end.

End Decode.

Arguments VBool {F}.
Arguments VInt {F}.
Arguments VUint {F}.
Arguments VFloat {F}.
Arguments VString {F}.
Arguments VSlice {F}.
Arguments VMap {F}.
Arguments VPtr {F}.
Arguments VStruct {F}.
Arguments VOpaque {F}.
Arguments InvalidValue {F}.
Arguments Val {F}.
Arguments Value_Type {F}.
Arguments Addr {F}.
Arguments pointee {F}.
Arguments through {F}.
Arguments forFields {F}.
Arguments decodeString {F}.
Arguments decodeInt {F}.
Arguments decodeUint {F}.
Arguments decodeBool {F}.
Arguments decodeFloat {F}.
Arguments decodeElems {F}.
Arguments decodeEntries {F}.
Arguments decodeSlice_ {F}.
Arguments decodeSlice {F}.
Arguments decodeMap {F}.
Arguments decodeProp {F}.
Arguments decodeField {F}.
Arguments decodeStruct_ {F}.
Arguments decodeStruct {F}.
Arguments decodeSection {F}.
Arguments decode {F}.

(** Floats kept as their decimal text: enough to run the decoder on
    closed inputs. *)
Definition textFloats : Floats := mkFloats string (fun s => Some s) id "0".

(** ** The scalar conversion rules

    What a scalar decoder stores for a raw value, by destination type
    (section 4.5 of the specification, read off decodeString, decodeInt,
    decodeUint, decodeFloat and decodeBool and the reflect setters). *)

Definition scalar (t : type) : bool :=
  match t with
  | bool_ | int | int8 | int16 | int32 | int64
  | uint | uint8 | uint16 | uint32 | uint64
  | float32 | float64 | string_ => true
  | _ => false
  end.

Definition convert {F : Floats} (t : type) (raw : string) : option (value F) :=
  match t with
  | string_ => Some (VString raw)
  | int | int8 | int16 | int32 | int64 =>
      (fun n => VInt (wrap_signed (Bits t) n)) <$> strconv.ParseInt raw
  | uint | uint8 | uint16 | uint32 | uint64 =>
      (fun n => VUint (wrap_unsigned (Bits t) n)) <$> strconv.ParseUint raw
  | float32 => (fun x => VFloat (to_float32 F x)) <$> ParseFloat F raw
  | float64 => VFloat <$> ParseFloat F raw
  | bool_ => VBool <$> strconv.ParseBool raw
  | _ => None
  end.

(** The signed and the unsigned integer types. *)
Definition signedInt (t : type) : bool :=
  match t with
  | int | int8 | int16 | int32 | int64 => true
  | _ => false
  end.

Definition unsignedInt (t : type) : bool :=
  match t with
  | uint | uint8 | uint16 | uint32 | uint64 => true
  | _ => false
  end.

(** The range of an integer type. *)
Definition inRange (t : type) (n : Z) : bool :=
  match t with
  | int | int8 | int16 | int32 | int64 =>
      (- 2 ^ (Bits t - 1) <=? n) && (n <? 2 ^ (Bits t - 1))
  | uint | uint8 | uint16 | uint32 | uint64 => (0 <=? n) && (n <? 2 ^ Bits t)
  | _ => false
  end.

(** On a string and a pointer to a scalar, the decoder that the switches
    of decodeSlice and decodeMap pick stores the conversion of the raw
    value, or reports the raw value and [rv.Type()] and stores nothing. *)
Definition scalarResult {F : Floats} (t : type) (raw : string) (v0 : value F)
  : Value F * outcome :=
  match convert t raw with
  | Some v => (Addr t v, Return None)
  | None => (Addr t v0, typeError (of_string raw) (PtrTo t))
  end.

(** The effective name of a field, and whether the field is skipped. *)
Definition fieldName (L : Lookups) (sf : StructField type) : string :=
  tag_name (newTag L sf).
Definition skipped (L : Lookups) (sf : StructField type) : bool :=
  String.eqb (fieldName L sf) "-".

(** What the scalar cases of decodeStruct do with the property [prop]
    that [s.get] returned: nothing when the property has no values at
    all, otherwise the first raw value under the empty map-key is
    converted and stored. *)
Definition bindScalar {F : Floats} (L : Lookups) (ft : type) (prop : property)
    (fv : value F) : value F * outcome :=
  if bool_decide (size (vals prop) = 0%nat) then (fv, Return None)
  else match property_get L prop "" with
       | [] => (fv, Panic)
       | raw :: _ =>
           match convert ft raw with
           | Some v => (v, Return None)
           | None => (fv, typeError (of_string raw) (PtrTo ft))
           end
       end.

(** ** The encode direction

    The file that holds Marshal is not among the sources (its test is);
    what follows is the encoder as sections 4.4 and 4.5 of the
    specification describe it, up to the parse tree it produces. *)

(** Modelled from the spec: the digits of [strconv.FormatUint(n, 10)],
    "integers and unsigned integers render as base-10 digit text".  Twenty
    digits are enough below 2^64. *)
Fixpoint formatBits (fuel : nat) (n : Z) (acc : string) : string :=
  match fuel with
  | O => acc
  | S fuel' =>
      let acc' := String.String (Ascii.ascii_of_nat (Z.to_nat (48 + n mod 10))) acc in
      if n <? 10 then acc' else formatBits fuel' (n / 10) acc'
  end.

(** Modelled from the spec: [strconv.FormatUint(n, 10)]. *)
Definition FormatUint (n : Z) : string := formatBits 20 n "".

(** Modelled from the spec: [strconv.FormatInt(n, 10)]. *)
Definition FormatInt (n : Z) : string :=
  if n <? 0 then String.String "-" (FormatUint (- n)) else FormatUint n.

(** Modelled from the spec: "booleans render as the literal true or
    false". *)
Definition FormatBool (b : bool) : string := if b then "true" else "false".

(** Modelled from the spec: the float side of the encoder,
    [strconv.FormatFloat] ("the shortest round-trip decimal
    representation") and the test [x == 0] of an optional field, taken
    as an interface like the float side of the decoder. *)
Record FloatFormat (F : Floats) := mkFloatFormat {
  FormatFloat : float F -> string;
  isZeroFloat : float F -> bool
}.
Arguments FormatFloat {F}.
Arguments isZeroFloat {F}.

Section Encode.
Context {F : Floats}.
Variable P : FloatFormat F.

(** Modelled from the spec: the text of a scalar (section 4.5, "encoding
    reverses each rule"); strings render verbatim. *)
Definition formatScalar (v : value F) : string :=
  match v with
  | VString s => s
  | VInt n => FormatInt n
  | VUint n => FormatUint n
  | VBool b => FormatBool b
  | VFloat f => FormatFloat P f
  | _ => ""
  end.

(** Modelled from the spec: whether a value is the zero value that an
    optional field leaves out. *)
Definition isZero (v : value F) : bool :=
  match v with
  | VString s => String.eqb s ""
  | VInt n | VUint n => n =? 0
  | VBool b => negb b
  | VFloat f => isZeroFloat P f
  | VSlice None | VMap None | VPtr None => true
  | VSlice (Some l) => bool_decide (l = [])
  | VMap (Some m) => bool_decide (size m = 0%nat)
  | _ => false
  end.

(** Modelled from the spec: whether a field is the origin-name field. *)
Definition isOriginName (sf : StructField type) : bool :=
  match Type_ sf with
  | string_ => String.eqb (Name sf) "ININame"
  | _ => false
  end.

(** Modelled from the spec: the property a field emits, if any.  A
    skipped field, the origin-name field, a zero-valued optional field,
    an empty collection and a field of a shape that a section does not
    support emit nothing.  A collection of scalars emits every element
    under the empty map-key, a keyed collection one value per map-key. *)
Definition encodeProperty (sf : StructField type) (v : value F)
  : option (string * property) :=
  let k := fieldName specLookups sf in
  if skipped specLookups sf then None
  else
    match Type_ sf, v with
    | SliceOf elem, VSlice (Some (x :: l)) =>
        if scalar elem
        then Some (k, mkProperty k {[ "" := formatScalar <$> x :: l ]})
        else None
    | MapOf _ elem, VMap (Some m) =>
        if scalar elem && negb (bool_decide (size m = 0%nat))
        then Some (k, mkProperty k ((fun x => [formatScalar x]) <$> m))
        else None
    | t, _ =>
        if scalar t && negb (isOriginName sf)
           && negb (Omitempty sf && isZero v)
        then Some (k, mkProperty k {[ "" := [formatScalar v] ]})
        else None
    end.

(** Modelled from the spec: the properties of a record, in declared
    order of its fields. *)
Definition encodeProperties (fields : list (StructField type))
    (vs : list (value F)) : list (string * property) :=
  omap (fun '(sf, v) => encodeProperty sf v) (zip fields vs).

(** Modelled from the spec: the value of the origin-name field of a
    record, when it has one that is not empty. *)
Fixpoint originName (fields : list (StructField type)) (vs : list (value F))
  : option string :=
  match fields, vs with
  | sf :: fields', v :: vs' =>
      match v with
      | VString s =>
          if isOriginName sf && negb (String.eqb s "") then Some s
          else originName fields' vs'
      | _ => originName fields' vs'
      end
  | _, _ => None
  end.

(** Modelled from the spec: a nested record as a section, "using the
    field's resolved name as the section name (or the record's
    origin-name field value, if present, overriding the declared
    name)". *)
Definition encodeRecord (sf : StructField type) (inner : list (StructField type))
    (v : value F) : section :=
  match v with
  | VStruct ws =>
      mkSection (default (fieldName specLookups sf) (originName inner ws))
        (encodeProperties inner ws)
  | _ => mkSection (fieldName specLookups sf) []
  end.

(** Modelled from the spec: the sections a top-level field emits, one
    for a nested record and one per element for a collection of nested
    records. *)
Definition encodeSections (sf : StructField type) (v : value F) : list section :=
  if skipped specLookups sf then []
  else
    match Type_ sf, v with
    | StructOf inner, VStruct _ => [encodeRecord sf inner v]
    | SliceOf (StructOf inner), VSlice (Some l) => encodeRecord sf inner <$> l
    | _, _ => []
    end.

(** Modelled from the spec: adding a section to the ordered mapping of a
    parse tree; instances of one name stay together, in the order they
    were added. *)
Fixpoint addSection (s : section) (groups : list (string * list section))
  : list (string * list section) :=
  match groups with
  | [] => [(name s, [s])]
  | (n, g) :: rest =>
      if String.eqb (name s) n then (n, g ++ [s]) :: rest
      else (n, g) :: addSection s rest
  end.

(** Modelled from the spec: the encode direction of the bind engine, up
    to the parse tree.  Global fields become properties of no section,
    then every nested record and every element of a collection of nested
    records becomes a section, in declared order. *)
Definition encode (fields : list (StructField type)) (vs : list (value F))
  : parseTree :=
  mkTree (mkSection "" (encodeProperties fields vs))
         (foldl (fun groups s => addSection s groups) []
                (concat (zip_with encodeSections fields vs))).

(** *** The records that round-trip *)

(** A scalar value of a scalar type, as Go stores it: integers within
    the range of the type, a float32 already rounded. *)
Definition scalarValue (t : type) (v : value F) : Prop :=
  match t, v with
  | string_, VString _ | bool_, VBool _ | float64, VFloat _ => True
  | float32, VFloat f => to_float32 F f = f
  | (int | int8 | int16 | int32 | int64), VInt n => inRange t n = true
  | (uint | uint8 | uint16 | uint32 | uint64), VUint n => inRange t n = true
  | _, _ => False
  end.

(** A field that a section binds, with a value that decoding gives back:
    a scalar other than the origin name, where an optional value that
    counts as zero is the zero value; a collection of scalars, nil or
    not empty; a keyed collection of scalars, allocated. *)
Definition plainField (sf : StructField type) (v : value F) : Prop :=
  skipped specLookups sf = false /\
  match Type_ sf, v with
  | SliceOf elem, VSlice None => scalar elem = true
  | SliceOf elem, VSlice (Some l) =>
      scalar elem = true /\ l <> [] /\ Forall (scalarValue elem) l
  | MapOf key elem, VMap (Some m) =>
      key = string_ /\ scalar elem = true /\
      map_Forall (fun _ => scalarValue elem) m
  | t, _ =>
      scalar t = true /\ scalarValue t v /\ isOriginName sf = false /\
      (Omitempty sf = true -> isZero v = true -> v = Zero F t)
  end.

Definition plainRecord (fields : list (StructField type)) (vs : list (value F))
  : Prop :=
  Forall2 plainField fields vs /\ NoDup (fieldName specLookups <$> fields).

(** A top-level field: a plain field, bound from the global properties,
    or a nested record of plain fields under a name that is not the
    wildcard. *)
Definition topField (sf : StructField type) (v : value F) : Prop :=
  plainField sf v \/
  (skipped specLookups sf = false /\ fieldName specLookups sf <> "*" /\
   exists inner ws, Type_ sf = StructOf inner /\ v = VStruct ws /\
                    plainRecord inner ws).

Definition topRecord (fields : list (StructField type)) (vs : list (value F))
  : Prop :=
  Forall2 topField fields vs /\ NoDup (fieldName specLookups <$> fields).

(** What the pass over the global properties leaves: the plain fields
    bound, the nested records as they were. *)
Definition afterGlobals (fields : list (StructField type))
    (vs : list (value F))
  : list (value F) :=
  zip_with (fun sf v => match Kind (Type_ sf) with
                        | reflect.Struct => Zero F (Type_ sf)
                        | _ => v
                        end) fields vs.

End Encode.

Arguments formatScalar {F}.
Arguments isZero {F}.
Arguments encodeProperty {F}.
Arguments encodeProperties {F}.
Arguments originName {F}.
Arguments encodeRecord {F}.
Arguments encodeSections {F}.
Arguments encode {F}.
Arguments scalarValue {F}.
Arguments plainField {F}.
Arguments plainRecord {F}.
Arguments topField {F}.
Arguments topRecord {F}.
Arguments afterGlobals {F}.

(** *** The text of a parse tree *)

Definition LF : string := String.String (Ascii.ascii_of_nat 10) "".

(** Modelled from the spec: the lines of a property in the wire format of
    section 6, [key=value] and [key[subkey]=value]. *)
Definition renderProperty (kp : string * property) : list string :=
  '(mapkey, raws) ← map_to_list (vals kp.2);
  (fun raw =>
     kp.1 +:+ (if String.eqb mapkey "" then "" else "[" +:+ mapkey +:+ "]")
          +:+ "=" +:+ raw) <$> raws.

(** Modelled from the spec: the lines of a section, its header first. *)
Definition renderSection (s : section) : list string :=
  ("[" +:+ name s +:+ "]") :: (props s ≫= renderProperty).

(** Modelled from the spec: the text of a parse tree, lines joined by
    newlines without a trailing one. *)
Definition render (t : parseTree) : string :=
  let lines :=
    (props (global t) ≫= renderProperty)
    ++ (sections t ≫= fun g => g.2 ≫= renderSection) in
  match lines with
  | [] => ""
  | l :: ls => foldl (fun acc x => acc +:+ LF +:+ x) l ls
  end.

(** The float side for floats kept as their decimal text. *)
Definition textFormat : FloatFormat textFloats :=
  mkFloatFormat textFloats id (fun s => String.eqb s "0").

(** ** Sample data for the closed examples *)

Definition field (n : string) (t : type) : StructField type :=
  mkField n None false t.

(** A property written as [k=v1], [k=v2], ...: all values sit under the
    empty map-key. *)
Definition plain (k : string) (raws : list string) : string * property :=
  (k, mkProperty k {[ "" := raws ]}).

(** A property written as [k[sub1]=v1], [k[sub2]=v2], ... *)
Definition keyed (k : string) (entries : list (string * list string))
  : string * property :=
  (k, mkProperty k (list_to_map entries)).

Definition V : Type := Value textFloats.

Module Sample.
(** [[Ports] Port=80 Port=443] into [struct { Port []int }]. *)
Definition ports : section := mkSection "Ports" [plain "Port" ["80"; "443"]].
Definition portsType : list (StructField type) := [field "Port" (SliceOf int)].
Definition portsZero : list (value textFloats) := [VSlice None].

(** [[Database] Port=143 Port=993] into [struct { Port int }]. *)
Definition twoPorts : section :=
  mkSection "Database" [plain "Port" ["143"; "993"]].

(** [[Sizes] Size[small]=1 Size[small]=2 Size[large]=3] into
    [struct { Size map[string][]string }]. *)
Definition sizes : section :=
  mkSection "Sizes" [keyed "Size" [("small", ["1"; "2"]); ("large", ["3"])]].
Definition sizesType : list (StructField type) :=
  [field "Size" (MapOf string_ (SliceOf string_))].

(** A section without properties, into [struct { Size map[string]int }]. *)
Definition empty : section := mkSection "Sizes" [].
Definition intSizesType : list (StructField type) :=
  [field "Size" (MapOf string_ int)].

(** [B=x], then [[A] N=abc], into
    [struct { A struct { N int }; B string }]. *)
Definition frameTree : parseTree :=
  mkTree (mkSection "" [plain "B" ["x"]])
         [("A", [mkSection "A" [plain "N" ["abc"]]])].
Definition frameInner : type := StructOf [field "N" int].
Definition frameType : list (StructField type) :=
  [field "A" frameInner; field "B" string_].
Definition frameZero : list (value textFloats) :=
  [VStruct [VInt 0]; VString ""].

(** Two sections [[Database]], into
    [struct { Database struct { Server string } }]. *)
Definition primary : section := mkSection "Database" [plain "Server" ["a"]].
Definition replica : section := mkSection "Database" [plain "Server" ["b"]].
Definition twoDatabases : parseTree :=
  mkTree (mkSection "" []) [("Database", [primary; replica])].
Definition serverType : type := StructOf [field "Server" string_].
Definition databaseField : StructField type := field "Database" serverType.

(** A section [[Database]] holding [ININame=x] and [Label=y], into the
    field [ININame string] tagged [Label]. *)
Definition labelled : section :=
  mkSection "Database" [plain "ININame" ["x"]; plain "Label" ["y"]].
Definition originField : StructField type :=
  mkField "ININame" (Some "Label") false string_.

(** [Size[small]=1 Size[large]=2], for a field [Size map[string]int]. *)
Definition sizeProperty : property :=
  mkProperty "Size" (list_to_map [("small", ["1"]); ("large", ["2"])]).

(** The record of TestMarshal in encode_test.go. *)
Definition databaseType : type :=
  StructOf [field "Server" string_; field "Port" int; field "Encrypted" bool_;
            field "Size" uint; field "Value" float64].
Definition testType : list (StructField type) := [field "Database" databaseType].
Definition testInput : list (value textFloats) :=
  [VStruct [VString "192.0.2.62"; VInt 143; VBool false; VUint 1234;
            VFloat ("12.34" : float textFloats)]].
Definition testWant : string :=
  "[Database]" +:+ LF +:+ "Server=192.0.2.62" +:+ LF +:+ "Port=143" +:+ LF
  +:+ "Encrypted=false" +:+ LF +:+ "Size=1234" +:+ LF +:+ "Value=12.34".

(** A nested record that names itself: [struct { Database struct {
    ININame string; Server string } }] with ININame "primary". *)
Definition namedType : list (StructField type) :=
  [field "Database" (StructOf [field "ININame" string_; field "Server" string_])].
Definition namedInput : list (value textFloats) :=
  [VStruct [VString "primary"; VString "a"]].
End Sample.

(** ** Shapes of a loop body *)

(** A body overwrites when what it leaves in the field and how it ends
    do not depend on what the field held, except that it may leave the
    field as it was. *)
Definition overwrites {F : Floats} (f : value F -> value F * outcome) : Prop :=
  exists c r, forall fv, f fv = (default fv c, r).

(** A body is settled when running it again on what it left changes
    nothing and ends the same way. *)
Definition settled {F : Floats}
    (step : StructField type -> value F -> value F * outcome) : Prop :=
  forall sf v v' r, step sf v = (v', r) -> step sf v' = (v', r).

(** A body that leaves every field as it was and never fails. *)
Definition idle {F : Floats} (f : value F -> value F * outcome) : Prop :=
  forall fv, f fv = (fv, Return None).

(** The kinds the switch of decodeStruct has a case for. *)
Definition hasCase (k : reflect.Kind) : bool :=
  match k with
  | reflect.Slice | reflect.Map | reflect.String
  | reflect.Int | reflect.Int8 | reflect.Int16 | reflect.Int32 | reflect.Int64
  | reflect.Uint | reflect.Uint8 | reflect.Uint16 | reflect.Uint32
  | reflect.Uint64
  | reflect.Float32 | reflect.Float64 | reflect.Bool => true
  | _ => false
  end.

(** A slice or a map whose elements are structs. *)
Definition ofStructs (t : type) : bool :=
  match Kind t, Kind <$> Elem t with
  | (reflect.Slice | reflect.Map), Some reflect.Struct => true
  | _, _ => false
  end.

(** An error that a lookup of the parse tree returned. *)
Definition fromLookup (L : Lookups) (e : error) : Prop :=
  (exists s k, section_get L s k = inr e) \/
  (exists t n, parseTree_get L t n = inr e).

(** An outcome whose error, if it is one, is an [*UnmarshalTypeError] or
    comes from a lookup. *)
Definition accounted (L : Lookups) (r : outcome) : Prop :=
  forall e, r = Return (Some e) ->
            (exists te, e = TypeError te) \/ fromLookup L e.

(** A call that stored nothing unless it returned nil. *)
Definition allOrNothing {F : Floats} (d : decoder F) (i : interface)
    (rv : Value F) : Prop :=
  (d i rv).2 <> Return None -> (d i rv).1 = rv.

(** What a property must look like for a step of decodeStruct on the
    field [sf] to panic: it has map-keys, and either the field is a
    scalar and the property has no value under the empty map-key, or the
    field is a map of scalars whose keys are no strings or one of whose
    map-keys has no value. *)
Definition panicCause (L : Lookups) (sf : StructField type) (prop : property)
  : Prop :=
  vals prop <> ∅ /\
  ((scalar (Type_ sf) = true /\ property_get L prop "" = []) \/
   (exists key elem, Type_ sf = MapOf key elem /\ scalar elem = true /\
      (key <> string_ \/ exists k, vals prop !! k = Some []))).

(** What one turn of the loop of decodeMap puts under a map-key whose
    raw values are [v]: [None] when the turn does not reach
    [vv.SetMapIndex]. *)
Definition entryValue {F : Floats} (d : decoder F) (elem : type)
    (v : list string) : option (value F) :=
  match match Kind elem with
        | reflect.Slice => Some (of_strings v)
        | _ => of_string <$> head v
        end with
  | None => None
  | Some val =>
      let '(mv', r) := d val (Addr elem (Zero F elem)) in
      match r with
      | Return None => Some (pointee (Zero F elem) mv')
      | _ => None
      end
  end.

(** ** Unmarshal *)

(** [Options], as unmarshal reads it. *)
Record Options := mkOptions {
  AllowMultilineValues : bool;
  AllowNumberSignComments : bool
}.

(** The options of the lexer that unmarshal sets. *)
Record lexerOptions := mkLexerOptions {
  allowMultilineEscapeNewline : bool;
  allowMultilineWhitespacePrefix : bool;
  allowNumberSignComments : bool
}.

(** The parser is not among the sources.  [newParser(data)] followed by
    [p.parse()] is taken as a function of the lexer options that
    unmarshal sets and of the data, to [p.tree] or to the error of
    [p.parse]; unmarshal is defined, and its properties are proved, for
    every such function. *)
Definition parser : Type := lexerOptions -> list Byte.byte -> parseTree + error.

Section Unmarshal.
Context {F : Floats}.
Variable L : Lookups.
Variable parse : parser.

(** [v] is [reflect.ValueOf(v)]: the zero Value for a nil interface. *)
Definition unmarshal (data : list Byte.byte) (v : Value F) (opts : Options)
  : Value F * outcome :=
  let l := mkLexerOptions (AllowMultilineValues opts)
                          (AllowMultilineValues opts)
                          (AllowNumberSignComments opts) in
  match parse l data with
  | inr err => (v, Return (Some err))
  | inl tree => decode L tree v
  end.

Definition Unmarshal (data : list Byte.byte) (v : Value F) : Value F * outcome :=
  unmarshal data v (mkOptions false false).

Definition UnmarshalWithOptions (data : list Byte.byte) (v : Value F)
    (opts : Options) : Value F * outcome :=
  unmarshal data v opts.

End Unmarshal.

(** ** More sample data *)

Module Input.
(** [[Database] Port[a]=1], for a field [Port int]. *)
Definition keyedPort : section :=
  mkSection "Database" [keyed "Port" [("a", ["1"])]].
Definition portType : list (StructField type) := [field "Port" int].

(** The same section in a tree, for
    [struct { Database struct { Port int } }]. *)
Definition crashing : parseTree :=
  mkTree (mkSection "" []) [("Database", [keyedPort])].
Definition crashingType : list (StructField type) :=
  [field "Database" (StructOf portType)].

(** [Port=143] before any section, then [[Port] Port=1], into
    [struct { Port int }]. *)
Definition shadowed : parseTree :=
  mkTree (mkSection "" [plain "Port" ["143"]])
         [("Port", [mkSection "Port" [plain "Port" ["1"]]])].

(** Two sections [[Database]] into
    [struct { Database []struct { Server string } }]. *)
Definition databasesField : StructField type :=
  field "Database" (SliceOf Sample.serverType).

(** [Secret=x], [Next=1] and [Inner=y] into
    [struct { Secret string `ini:"-"`; Next *int; Inner struct { Server string } }]. *)
Definition guarded : section :=
  mkSection "" [plain "Secret" ["x"]; plain "Next" ["1"]; plain "Inner" ["y"]].
Definition guardedTree : parseTree := mkTree guarded [].
Definition guardedType : list (StructField type) :=
  [mkField "Secret" (Some "-") false string_; field "Next" (PtrTo int);
   field "Inner" Sample.serverType].
Definition guardedValues : list (value textFloats) :=
  [VString "keep"; VPtr None; VStruct [VString "old"]].

(** Lookups that report the omitempty option for every field. *)
Definition omitemptyLookups : Lookups := {|
  parseTree_get := parseTree_get specLookups;
  section_get := section_get specLookups;
  property_get := property_get specLookups;
  newTag sf := mkTag (tag_name (newTag specLookups sf)) true
|}.
End Input.

(** A parser that knows one document: the empty data stands for the
    tree [Input.shadowed], any other data is a syntax error. *)
Definition onlyShadowed : parser :=
  fun _ data =>
    match data with
    | [] => inl Input.shadowed
    | _ => inr (OtherError "syntax error")
    end.

(** * Properties *)

Section Facts.
Variable F : Floats.
Variable L : Lookups.
Implicit Types (fields : list (StructField type)) (vs : list (value F)).
Implicit Types (step : StructField type -> value F -> value F * outcome).
Implicit Types (rv : Value F) (r : outcome) (v fv : value F).

(** ** The field loop *)

Lemma forFields_length step fields vs :
  length (forFields step fields vs).1 = length vs.
Proof.
  revert vs. induction fields as [|sf fields IH]; intros [|v vs]; simpl; try done.
  destruct (step sf v) as [v' r]. destruct r as [[e|]|]; simpl; try done.
  specialize (IH vs). destruct (forFields step fields vs) as [vs'' r'].
  simpl in *. by rewrite IH.
Qed.

(** When the loop ends without error, every field holds what its own
    step left in it, and every step ended without error. *)
Lemma forFields_ok step fields vs vs' j sf v :
  forFields step fields vs = (vs', Return None) ->
  fields !! j = Some sf -> vs !! j = Some v ->
  vs' !! j = Some (step sf v).1 /\ (step sf v).2 = Return None.
Proof.
  revert vs vs' j. induction fields as [|sf0 fields IH]; intros [|v0 vs] vs' j;
    simpl; try done.
  destruct (step sf0 v0) as [v' r] eqn:Hs. destruct r as [[e|]|]; try done.
  destruct (forFields step fields vs) as [vs'' r'] eqn:Hrest.
  intros [= <- ->]. destruct j as [|j]; simpl.
  - intros [= <-] [= <-]. by rewrite Hs.
  - intros Hsf Hv. by eapply IH.
Qed.

(** The loop ends without error as soon as every step does. *)
Lemma forFields_total step fields vs :
  (forall j sf v, fields !! j = Some sf -> vs !! j = Some v ->
                  (step sf v).2 = Return None) ->
  (forFields step fields vs).2 = Return None.
Proof.
  revert vs. induction fields as [|sf0 fields IH]; intros [|v0 vs] Hall;
    simpl; try done.
  pose proof (Hall 0%nat sf0 v0 eq_refl eq_refl) as H0.
  destruct (step sf0 v0) as [v' r]. simpl in H0. subst r.
  specialize (IH vs (fun j sf v Hsf Hv => Hall (S j) sf v Hsf Hv)).
  by destruct (forFields step fields vs) as [vs'' r'].
Qed.

(** When the loop is left early, it is left in some field [i]: the
    fields before [i] hold what their steps left, field [i] holds what
    the failing step left, and the fields after [i] are as they were. *)
Lemma forFields_stop step fields vs vs' r :
  forFields step fields vs = (vs', r) -> r <> Return None ->
  exists i sf v,
    fields !! i = Some sf /\ vs !! i = Some v /\
    (step sf v).2 = r /\ vs' !! i = Some (step sf v).1 /\
    (forall j, (i < j)%nat -> vs' !! j = vs !! j) /\
    (forall j sf' v', (j < i)%nat -> fields !! j = Some sf' ->
       vs !! j = Some v' ->
       vs' !! j = Some (step sf' v').1 /\ (step sf' v').2 = Return None).
Proof.
  revert vs vs'. induction fields as [|sf0 fields IH]; intros [|v0 vs] vs';
    simpl; try (by intros [= <- <-]).
  destruct (step sf0 v0) as [v' r0] eqn:Hs.
  assert (r0 = Return None \/ r0 <> Return None) as [->|Hr0]
    by (destruct r0 as [[e|]|]; (by left) || (by right)).
  - destruct (forFields step fields vs) as [vs'' r'] eqn:Hrest.
    intros [= <- <-] Hr.
    destruct (IH _ _ Hrest Hr) as (i & sf & v & Hsf & Hv & Hr' & Hi & Hafter & Hbefore).
    exists (S i), sf, v. split_and!; try done.
    + intros [|j] Hj; [lia|]. simpl. apply Hafter. lia.
    + intros [|j] sf' w Hj Hsf' Hw; simpl in *.
      * simplify_eq. by rewrite Hs.
      * eapply Hbefore; [lia|done..].
  - intros Heq Hr.
    assert ((v' :: vs, r0) = (vs', r)) as [= <- <-]
      by (by destruct r0 as [[e|]|]).
    exists 0%nat, sf0, v0. rewrite Hs. split_and!; try done.
    + intros [|j] Hj; [lia|done].
    + intros j sf' w Hj. lia.
Qed.

(** ** The scalar decoders *)

Lemma sliceDecoderFunc_scalar (X : decoder F) t :
  scalar t = true ->
  exists d, sliceDecoderFunc F X (Kind t) = Some d /\
            mapDecoderFunc F (Kind t) = Some d /\
            forall raw v0, d (of_string raw) (Addr t v0) = scalarResult t raw v0.
Proof.
  destruct t; try done; intros _; eexists; (split; [reflexivity|]);
    (split; [reflexivity|]); intros raw v0;
    unfold scalarResult, convert, decodeString, decodeInt, decodeUint,
      decodeFloat, decodeBool, scalarGuard; simpl;
    try done;
    match goal with |- context [match ?p with _ => _ end] => by destruct p end.
Qed.

Lemma decodeElems_scalar (d : decoder F) elem raws :
  (forall raw v0, d (of_string raw) (Addr elem v0) = scalarResult elem raw v0) ->
  match mapM (convert elem) raws with
  | Some elems => decodeElems d elem (of_string <$> raws) = (elems, Return None)
  | None => exists raw, raw ∈ raws /\
      (decodeElems d elem (of_string <$> raws)).2
      = typeError (of_string raw) (PtrTo elem)
  end.
Proof.
  intros Hd. induction raws as [|raw raws IH]; csimpl; [done|].
  rewrite Hd. unfold scalarResult.
  destruct (convert elem raw) as [v|] eqn:Hc; csimpl.
  - destruct (mapM (convert elem) raws) as [elems|]; csimpl.
    + by rewrite IH.
    + destruct IH as (raw' & Hin & Hr). exists raw'. split; [by right|].
      by destruct (decodeElems d elem (of_string <$> raws)).
  - exists raw. split; [by left|done].
Qed.

Lemma decodeSlice_scalar (X : decoder F) elem raws v0 :
  scalar elem = true ->
  match mapM (convert elem) raws with
  | Some elems =>
      decodeSlice_ X (of_strings raws) (Addr (SliceOf elem) v0)
      = (Addr (SliceOf elem) (VSlice (Some elems)), Return None)
  | None => exists raw, raw ∈ raws /\
      decodeSlice_ X (of_strings raws) (Addr (SliceOf elem) v0)
      = (Addr (SliceOf elem) v0, typeError (of_string raw) (PtrTo elem))
  end.
Proof.
  intros Hsc.
  destruct (sliceDecoderFunc_scalar X elem Hsc) as (d & Hd & _ & Hres).
  pose proof (decodeElems_scalar d elem raws Hres) as He.
  unfold decodeSlice_. cbn [Value_Type Addr TypeOf_Kind Kind Elem elements].
  rewrite Hd.
  destruct (mapM (convert elem) raws) as [elems|].
  - by rewrite He.
  - destruct He as (raw & Hin & Hr). exists raw. split; [done|].
    destruct (decodeElems d elem (of_string <$> raws)) as [vv r].
    simpl in Hr. by subst r.
Qed.

Lemma sliceDecoderFunc_not_struct (X Y : decoder F) k :
  k <> reflect.Struct -> sliceDecoderFunc F X k = sliceDecoderFunc F Y k.
Proof. by destruct k. Qed.

(** decodeSlice yields the same on a slice whose elements are no structs,
    whatever it would use for structs. *)
Lemma decodeSlice_not_struct (X Y : decoder F) (v : interface) rv :
  (forall elem, Value_Type rv = Some (PtrTo (SliceOf elem)) ->
                Kind elem <> reflect.Struct) ->
  decodeSlice_ X v rv = decodeSlice_ Y v rv.
Proof.
  intros Hk. destruct rv as [|t pv]; [done|].
  destruct t as [| | | | | | | | | | | | | |e|k e|e| |]; try done.
  destruct pv as [| | | | | | |[w|]| |]; try done.
  unfold decodeSlice_. cbn [Value_Type Kind].
  destruct (TypeOf_Kind v); try done.
  destruct e as [| | | | | | | | | | | | | |e|k e|e| |]; try done;
    cbn [Elem].
  - specialize (Hk e eq_refl).
    by rewrite (sliceDecoderFunc_not_struct X Y _ Hk).
  - by destruct (Kind e).
  - by destruct (Kind e).
Qed.

(** ** decodeStruct *)

Lemma forFields_ext step step' fields vs :
  (forall sf v, step sf v = step' sf v) ->
  forFields step fields vs = forFields step' fields vs.
Proof.
  intros Hext. revert vs. induction fields as [|sf fields IH]; intros [|v vs];
    simpl; try done.
  by rewrite Hext, IH.
Qed.

Lemma decodeField_ext (X Y : decoder F) s sf fv :
  decodeField L (decodeSlice_ X) s sf fv
  = decodeField L (decodeSlice_ Y) s sf fv.
Proof.
  unfold decodeField. destruct (String.eqb _ "-"); [done|].
  destruct (Type_ sf) as [| | | | | | | | | | | | | |e|k e|e| |] eqn:Ht;
    try done.
  cbn [Kind Elem fmap option_fmap option_map].
  destruct (section_get L s _) as [prop|err]; [|by destruct (Kind e)].
  destruct (Kind e) eqn:Hk; try done;
    try (case_bool_decide; try done; f_equal;
         apply decodeSlice_not_struct; intros e' [= <-]; by rewrite Hk).
Qed.

(** The equation of the source: the decodeSlice that decodeStruct calls
    is decodeSlice itself. *)
Lemma decodeStruct_unfold i rv :
  decodeStruct L i rv = decodeStruct_ L (decodeSlice L) i rv.
Proof.
  unfold decodeStruct, decodeSlice, decodeStruct_.
  destruct rv as [|t pv]; [done|]. cbn [Value_Type].
  destruct i; try done. destruct (Kind t); try done.
  destruct t as [| | | | | | | | | | | | | | | |st| |]; try done.
  destruct st; try done. destruct pv as [| | | | | | |[[]|]| |]; try done.
  by rewrite (forFields_ext _ _ _ _
    (decodeField_ext (fun _ rv => (rv, Panic)) (decodeStruct L) s)).
Qed.

(** decodeStruct on a pointer to a struct runs the field loop. *)
Lemma decodeStruct_fields s fields vs :
  decodeStruct L (of_section s) (Addr (StructOf fields) (VStruct vs))
  = (Addr (StructOf fields)
       (VStruct (forFields (decodeField L (decodeSlice L) s) fields vs).1),
     (forFields (decodeField L (decodeSlice L) s) fields vs).2).
Proof.
  rewrite decodeStruct_unfold. unfold decodeStruct_. simpl.
  by destruct (forFields _ fields vs).
Qed.

(** ** The cases of the loop body of decodeStruct *)

Lemma decodeField_skipped (d : decoder F) s sf fv :
  skipped L sf = true -> decodeField L d s sf fv = (fv, Return None).
Proof. unfold skipped, fieldName, decodeField. by intros ->. Qed.

Lemma decodeProp_scalar (d : decoder F) s t ft fv :
  (forall raw v0, d (of_string raw) (Addr ft v0) = scalarResult ft raw v0) ->
  decodeProp L d s t ft fv
  = match section_get L s (tag_name t) with
    | inl prop => bindScalar L ft prop fv
    | inr err => (fv, Return (Some err))
    end.
Proof.
  intros Hd. unfold decodeProp, bindScalar.
  destruct (section_get L s (tag_name t)) as [prop|err]; [|done].
  case_bool_decide; [done|].
  destruct (property_get L prop "") as [|raw raws]; [done|].
  rewrite Hd. unfold scalarResult. by destruct (convert ft raw).
Qed.

(** A scalar field that is not the origin-name field takes the first raw
    value of its property. *)
Lemma decodeField_scalar (d : decoder F) s sf fv :
  scalar (Type_ sf) = true -> skipped L sf = false ->
  (Type_ sf = string_ -> Name sf <> "ININame") ->
  decodeField L d s sf fv
  = match section_get L s (fieldName L sf) with
    | inl prop => bindScalar L (Type_ sf) prop fv
    | inr err => (fv, Return (Some err))
    end.
Proof.
  intros Hsc Hskip Hname. unfold decodeField.
  unfold skipped, fieldName in *. rewrite Hskip.
  destruct (sliceDecoderFunc_scalar d (Type_ sf) Hsc) as (dd & Hdd & _ & Hres).
  destruct (Type_ sf) eqn:Ht; try done; cbn [Kind];
    try (simpl in Hdd; injection Hdd as <-; by apply decodeProp_scalar).
  destruct (String.eqb_spec (Name sf) "ININame") as [Heq|_].
  - by destruct Hname.
  - simpl in Hdd; injection Hdd as <-. by apply decodeProp_scalar.
Qed.

(** A string field named ININame takes the name of the section. *)
Lemma decodeField_ININame (d : decoder F) s sf fv :
  Type_ sf = string_ -> Name sf = "ININame" -> skipped L sf = false ->
  decodeField L d s sf fv = (VString (name s), Return None).
Proof.
  intros Ht Hn Hskip. unfold decodeField.
  unfold skipped, fieldName in Hskip. by rewrite Hskip, Ht, Hn.
Qed.

(** A field that is a slice of scalars takes the conversions of all raw
    values under the empty map-key, or stays as it is when there are
    none or when one of them does not convert. *)
Lemma decodeField_slice s sf fv elem prop :
  Type_ sf = SliceOf elem -> scalar elem = true -> skipped L sf = false ->
  section_get L s (fieldName L sf) = inl prop ->
  let raws := property_get L prop "" in
  match raws, mapM (convert elem) raws with
  | [], _ => decodeField L (decodeSlice L) s sf fv = (fv, Return None)
  | _ :: _, Some elems =>
      decodeField L (decodeSlice L) s sf fv = (VSlice (Some elems), Return None)
  | _ :: _, None => exists raw, raw ∈ raws /\
      decodeField L (decodeSlice L) s sf fv
      = (fv, typeError (of_string raw) (PtrTo elem))
  end.
Proof.
  intros Ht Hsc Hskip Hget raws. unfold decodeField.
  unfold skipped in Hskip. fold (fieldName L sf). rewrite Hskip, Ht, Hget.
  cbn [Kind Elem fmap option_fmap option_map].
  assert (Kind elem <> reflect.Struct) as Hk by (by destruct elem).
  fold raws.
  pose proof (decodeSlice_scalar (decodeStruct L) elem raws fv Hsc) as Hs.
  fold (decodeSlice (F:=F) L) in Hs.
  destruct raws as [|raw0 raws0] eqn:Hraws.
  - by destruct (Kind elem).
  - rewrite bool_decide_eq_false_2 by done.
    destruct (mapM (convert elem) (raw0 :: raws0)) as [elems|].
    + rewrite Hs. by destruct (Kind elem).
    + destruct Hs as (raw & Hin & Hs). exists raw. split; [done|].
      rewrite Hs. by destruct (Kind elem).
Qed.

(** Whatever way the loop ends, a field holds either its old value (the
    loop was left before it) or what its step left in it. *)
Lemma forFields_field step fields vs j sf v :
  fields !! j = Some sf -> vs !! j = Some v ->
  (forFields step fields vs).1 !! j = Some v \/
  (forFields step fields vs).1 !! j = Some (step sf v).1.
Proof.
  revert vs j. induction fields as [|sf0 fields IH]; intros [|v0 vs] j;
    simpl; try done.
  destruct (step sf0 v0) as [v' r] eqn:Hs.
  destruct j as [|j]; simpl.
  - intros [= <-] [= <-]. right. rewrite Hs.
    destruct r as [[e|]|]; try done. by destruct (forFields step fields vs).
  - intros Hsf Hv. destruct r as [[e|]|]; simpl; auto.
    specialize (IH vs j Hsf Hv).
    by destruct (forFields step fields vs).
Qed.

(** ** decode *)

(** decode on a pointer to a struct: the pass over the global
    properties, then the pass over the sections. *)
Lemma decode_fields tree fields vs :
  decode L tree (Addr (StructOf fields) (VStruct vs))
  = let '(vs1, r1) :=
      forFields (decodeField L (decodeSlice L) (global tree)) fields vs in
    match r1 with
    | Return None =>
        let '(vs2, r2) := forFields (decodeSection L tree) fields vs1 in
        (Addr (StructOf fields) (VStruct vs2), r2)
    | _ => (Addr (StructOf fields) (VStruct vs1), r1)
    end.
Proof.
  unfold decode. cbn [Addr Value_Type Kind].
  change (Val (PtrTo (StructOf fields)) (VPtr (Some (VStruct vs))))
    with (Addr (StructOf fields) (VStruct vs)).
  rewrite decodeStruct_fields.
  destruct (forFields (decodeField L (decodeSlice L) (global tree)) fields vs)
    as [vs1 r1].
  cbn [fst snd]. by destruct r1 as [[e|]|].
Qed.

(** The pass over the global properties leaves nested records and
    collections of nested records alone. *)
Lemma decodeField_struct (d : decoder F) s sf fv :
  Kind (Type_ sf) = reflect.Struct ->
  decodeField L d s sf fv = (fv, Return None).
Proof.
  intros Hk. unfold decodeField. rewrite Hk. by destruct (String.eqb _ _).
Qed.

Lemma decodeField_slice_of_struct (d : decoder F) s sf fv elem :
  Type_ sf = SliceOf elem -> Kind elem = reflect.Struct ->
  decodeField L d s sf fv = (fv, Return None).
Proof.
  intros Ht Hk. unfold decodeField. rewrite Ht. simpl. rewrite Hk.
  by destruct (String.eqb _ _).
Qed.

(** ** decodeMap on a map of scalars *)

(** The loop of decodeMap, for every enumeration [kvs] of the entries
    without repeated keys: when the first raw value of every entry
    converts, the loop ends without error, every key of [kvs] is bound
    to the conversion of its first raw value, and the other keys are as
    in the map the loop started from. *)
Lemma decodeEntries_scalar (d : decoder F) elem kvs (acc : gmap string (value F)) :
  scalar elem = true ->
  (forall raw v0, d (of_string raw) (Addr elem v0) = scalarResult elem raw v0) ->
  NoDup kvs.*1 ->
  (forall k raws, (k, raws) ∈ kvs -> is_Some (head raws ≫= convert (F:=F) elem)) ->
  exists m', decodeEntries d string_ elem kvs acc = (m', Return None) /\
    (forall k raws, (k, raws) ∈ kvs -> m' !! k = head raws ≫= convert elem) /\
    (forall k, k ∉ kvs.*1 -> m' !! k = acc !! k).
Proof.
  intros Hsc Hd. revert acc.
  induction kvs as [|[k0 raws0] kvs IH]; intros acc Hnd Hall.
  - exists acc. split; [done|]. split; [|done].
    intros k raws Hin. by apply elem_of_nil in Hin.
  - rewrite fmap_cons in Hnd. apply NoDup_cons in Hnd as [Hk0 Hnd].
    destruct (Hall k0 raws0) as [v0 Hv0]; [by left|].
    destruct raws0 as [|raw0 raws0]; [done|]. cbn in Hv0.
    destruct (IH (<[k0 := v0]> acc) Hnd) as (m' & Hloop & Hin & Hout).
    { intros k raws Hk. apply (Hall k). by right. }
    exists m'. split_and!.
    + cbn [decodeEntries head fmap option_fmap option_map].
      assert (match Kind elem with
              | reflect.Slice => Some (of_strings (raw0 :: raws0))
              | _ => Some (of_string raw0)
              end = Some (of_string raw0)) as -> by (by destruct elem).
      rewrite Hd. unfold scalarResult. by rewrite Hv0.
    + intros k raws [[= -> ->]|Hk]%elem_of_cons.
      * rewrite (Hout k0 Hk0), lookup_insert_eq. by rewrite <- Hv0.
      * by apply Hin.
    + intros k Hk. rewrite fmap_cons in Hk.
      apply not_elem_of_cons in Hk as [Hne Hk].
      rewrite (Hout k Hk). by rewrite lookup_insert_ne.
Qed.

(** decodeMap on a pointer to a map from strings to scalars: when the
    first raw value under every map-key converts, the field becomes a
    map with exactly the map-keys of the property, each bound to the
    conversion of its first raw value. *)
Lemma decodeMap_scalar p elem v0 :
  scalar elem = true ->
  (forall k raws, vals p !! k = Some raws ->
                  is_Some (head raws ≫= convert (F:=F) elem)) ->
  exists m', decodeMap (of_property p) (Addr (MapOf string_ elem) v0)
             = (Addr (MapOf string_ elem) (VMap (Some m')), Return None) /\
    forall k, m' !! k
              = vals p !! k ≫= fun raws => head raws ≫= convert (F:=F) elem.
Proof.
  intros Hsc Hall.
  destruct (sliceDecoderFunc_scalar (fun _ rv => (rv, Panic)) elem Hsc)
    as (d & _ & Hd & Hres).
  destruct (decodeEntries_scalar d elem (map_to_list (vals p)) ∅ Hsc Hres)
    as (m' & Hloop & Hin & Hout).
  { apply NoDup_fst_map_to_list. }
  { intros k raws Hk. apply (Hall k). by apply elem_of_map_to_list. }
  exists m'. split.
  - unfold decodeMap. cbn [Value_Type Addr Kind Elem]. by rewrite Hd, Hloop.
  - intros k. destruct (vals p !! k) as [raws|] eqn:Hk.
    + apply Hin. by apply elem_of_map_to_list.
    + rewrite Hout; [done|]. intros [[k' raws] [-> Hin']]%list_elem_of_fmap.
      apply elem_of_map_to_list in Hin'. simpl in *. congruence.
Qed.

(** * The claims *)

(** C3.  Ordered collection of scalars.  Let field [j] of the destination
    be a slice of scalars that the name [-] does not exclude, and let
    [raws] be the value sequence, under the empty map-key, of the
    property that [s.get] returns for its name.  When [raws] is empty
    the field keeps its value, however the call ends.  When [raws] has
    N >= 1 values and decodeStruct returns no error, the field is a slice of exactly N elements, element i being
    the conversion of the i-th raw value on its own, in source order; a
    single value gives a one-element slice.  The step of the field does
    return no error as soon as every raw value converts. *)
Theorem decodeStruct_slice_of_scalars s fields vs j sf fv elem prop :
  fields !! j = Some sf -> vs !! j = Some fv ->
  Type_ sf = SliceOf elem -> scalar elem = true -> skipped L sf = false ->
  section_get L s (fieldName L sf) = inl prop ->
  let raws := property_get L prop "" in
  let res :=
    decodeStruct L (of_section s) (Addr (StructOf fields) (VStruct vs)) in
  exists vs', res.1 = Addr (StructOf fields) (VStruct vs') /\
    (raws = [] -> vs' !! j = Some fv) /\
    (raws <> [] -> res.2 = Return None ->
       exists elems, vs' !! j = Some (VSlice (Some elems)) /\
         length elems = length raws /\
         Forall2 (fun raw v => convert elem raw = Some v) raws elems) /\
    (forall raw, raws = [raw] -> res.2 = Return None ->
       exists v, convert elem raw = Some v /\
                 vs' !! j = Some (VSlice (Some [v]))) /\
    (forall elems, raws <> [] -> mapM (convert elem) raws = Some elems ->
       decodeField L (decodeSlice L) s sf fv
       = (VSlice (Some elems), Return None)).
Proof.
  intros Hsf Hv Ht Hsc Hskip Hget raws res.
  pose proof (decodeField_slice s sf fv elem prop Ht Hsc Hskip Hget) as Hstep.
  fold raws in Hstep. cbv zeta in Hstep.
  subst res. rewrite decodeStruct_fields. cbn [fst snd].
  set (step := decodeField L (decodeSlice L) s) in *.
  exists (forFields step fields vs).1. split; [done|].
  assert (raws <> [] -> (forFields step fields vs).2 = Return None ->
          exists elems, (forFields step fields vs).1 !! j
                        = Some (VSlice (Some elems)) /\
            mapM (convert elem) raws = Some elems) as Hmain.
  { intros Hne Hok.
    destruct (forFields step fields vs) as [vs' r] eqn:Hloop.
    simpl in Hok. subst r.
    destruct (forFields_ok _ _ _ _ _ _ _ Hloop Hsf Hv) as [Hj Hr].
    destruct raws as [|raw0 raws0]; [done|].
    destruct (mapM (convert elem) (raw0 :: raws0)) as [elems|].
    - exists elems. cbn [fst]. by rewrite Hj, Hstep.
    - destruct Hstep as (raw & _ & Hstep). by rewrite Hstep in Hr. }
  split_and!.
  - intros Hnil. rewrite Hnil in Hstep.
    destruct (forFields_field step fields vs j sf fv Hsf Hv) as [->| ->];
      [done|]. by rewrite Hstep.
  - intros Hne Hok. destruct (Hmain Hne Hok) as (elems & Hj & Hm).
    exists elems. apply mapM_Some in Hm. split_and!; [done| |done].
    symmetry. by eapply Forall2_length.
  - intros raw Hraw Hok.
    destruct Hmain as (elems & Hj & Hm); [by rewrite Hraw|done|].
    rewrite Hraw in Hm. apply mapM_Some in Hm.
    apply Forall2_cons_inv_l in Hm as (v & elems' & Hc & Hnil & ->).
    apply Forall2_nil_inv_l in Hnil as ->. by exists v.
  - intros elems Hne Hm. destruct raws as [|raw0 raws0]; [done|].
    by rewrite Hm in Hstep.
Qed.

(** C10.  The origin name.  A field named ININame that the name [-] does
    not exclude and whose kind is string receives the name of the section
    itself: the result mentions no lookup, so it is the same whatever
    properties the section holds and whatever name the tag gives.  When
    the kind is not string the declared name plays no part: the field is
    bound as any field of that type and effective name, and for a scalar
    that is the first value of the property looked up under the effective
    name. *)
Theorem ININame_only_for_strings (d : decoder F) s sf fv :
  Name sf = "ININame" -> skipped L sf = false ->
  (Kind (Type_ sf) = reflect.String ->
     decodeField L d s sf fv = (VString (name s), Return None)) /\
  (Kind (Type_ sf) <> reflect.String ->
     (forall sf', Type_ sf' = Type_ sf -> fieldName L sf' = fieldName L sf ->
        decodeField L d s sf' fv = decodeField L d s sf fv) /\
     (scalar (Type_ sf) = true ->
        decodeField L d s sf fv
        = match section_get L s (fieldName L sf) with
          | inl prop => bindScalar L (Type_ sf) prop fv
          | inr err => (fv, Return (Some err))
          end)).
Proof.
  intros Hname Hskip. split; [|intros Hk; split].
  - intros Hk. apply decodeField_ININame; [|done..].
    by destruct (Type_ sf) as [| | | | | | | | | | | | | | | | | |[]].
  - intros sf' Ht Hn. unfold decodeField, decodeProp.
    unfold fieldName in Hn. rewrite Hn, Ht.
    by destruct (Type_ sf) as [| | | | | | | | | | | | | | | | | |[]].
  - intros Hsc. apply decodeField_scalar; [done..|].
    intros Ht. by rewrite Ht in Hk.
Qed.

(** C7.  Top-level nested records.  Let field [j] of the destination be a
    struct that the name [-] does not exclude, and let [group] be what
    [tree.get] returns for its name.  When [group] is empty the step of
    the field returns no error and the field keeps its value, however
    decode ends.  When [group] has instances the step binds the first of
    them and nothing of the others, and after a decode without error the
    field holds what decodeStruct made of it from that first instance. *)
Theorem decode_nested_record tree fields vs j sf fv group :
  fields !! j = Some sf -> vs !! j = Some fv ->
  Kind (Type_ sf) = reflect.Struct -> skipped L sf = false ->
  parseTree_get L tree (fieldName L sf) = inl group ->
  let res := decode L tree (Addr (StructOf fields) (VStruct vs)) in
  let bound first :=
    decodeStruct L (of_section first) (Addr (Type_ sf) fv) in
  exists vs', res.1 = Addr (StructOf fields) (VStruct vs') /\
    (group = [] ->
       decodeSection L tree sf fv = (fv, Return None) /\ vs' !! j = Some fv) /\
    (forall first rest, group = first :: rest ->
       decodeSection L tree sf fv = through fv (bound first) /\
       (res.2 = Return None -> vs' !! j = Some (pointee fv (bound first).1))).
Proof.
  intros Hsf Hv Hk Hskip Hget res bound.
  assert (decodeSection L tree sf fv
          = match group with
            | [] => (fv, Return None)
            | first :: _ => through fv (bound first)
            end) as Hstep.
  { unfold decodeSection. unfold skipped in Hskip. fold (fieldName L sf).
    by rewrite Hskip, Hk, Hget. }
  pose proof (decodeField_struct (decodeSlice L) (global tree) sf fv Hk) as Hglob.
  subst res. rewrite decode_fields.
  destruct (forFields (decodeField L (decodeSlice L) (global tree)) fields vs)
    as [vs1 r1] eqn:Hpass1.
  assert (vs1 !! j = Some fv) as Hv1.
  { pose proof (forFields_field (decodeField L (decodeSlice L) (global tree))
                  fields vs j sf fv Hsf Hv) as Hf.
    rewrite Hpass1, Hglob in Hf. simpl in Hf. by destruct Hf. }
  destruct r1 as [[e|]|].
  - exists vs1. split; [done|]. split.
    + intros ->. by rewrite Hstep.
    + intros first rest ->. by rewrite Hstep.
  - destruct (forFields (decodeSection L tree) fields vs1) as [vs2 r2] eqn:Hpass2.
    exists vs2. split; [done|]. split.
    + intros ->. split; [done|].
      pose proof (forFields_field (decodeSection L tree) fields vs1 j sf fv
                    Hsf Hv1) as Hf.
      rewrite Hpass2, Hstep in Hf. simpl in Hf. by destruct Hf.
    + intros first rest ->. split; [done|]. simpl. intros ->.
      destruct (forFields_ok _ _ _ _ _ _ _ Hpass2 Hsf Hv1) as [Hj _].
      by rewrite Hj, Hstep.
  - exists vs1. split; [done|]. split.
    + intros ->. by rewrite Hstep.
    + intros first rest ->. by rewrite Hstep.
Qed.


(** C6 (the code at the failing input).  [reflect.ValueOf(nil)] is the
    zero Value: [rv.Type()] panics on it, and it panics again after
    [reflect.Indirect] of a nil pointer, so decode returns no error at
    all on nil. *)
Theorem decode_nil_panics tree t :
  decode L tree (InvalidValue (F:=F)) = (InvalidValue, Panic) /\
  decode L tree (Val (PtrTo t) (VPtr None) : Value F)
  = (Val (PtrTo t) (VPtr None), Panic).
Proof. done. Qed.

(** The two guards of decode on a value that has a type: what is not a
    pointer, and a pointer to what is not a struct, is refused with an
    UnmarshalTypeError that carries the type, and nothing is stored. *)
Lemma decode_not_pointer_to_struct tree t v :
  (Kind t <> reflect.Ptr ->
   decode L tree (Val t v : Value F) = (Val t v, typeError (of_parseTree tree) t)) /\
  (forall w, Kind t <> reflect.Struct ->
   decode L tree (Addr t w : Value F) = (Addr t w, typeError (of_parseTree tree) t)).
Proof.
  split.
  - intros Hk. unfold decode. cbn [Value_Type]. by destruct (Kind t).
  - intros w Hk. unfold decode. cbn [Addr Value_Type Kind].
    by destruct (Kind t).
Qed.

(** ** What does hold of the integer decoders and of decodeMap *)

Lemma digits_lower_bound a s n :
  0 <= a -> strconv.digits a s = Some n -> a <= n.
Proof.
  revert a. induction s as [|c s IH]; intros a Ha; cbn [strconv.digits].
  - intros [= <-]. lia.
  - destruct (strconv.isDigit c) eqn:Hc; [|done]. intros Hd.
    apply IH in Hd.
    + unfold strconv.digit in *. unfold strconv.isDigit in Hc.
      apply andb_true_iff in Hc as [Hlo _]. apply Nat.leb_le in Hlo. lia.
    + unfold strconv.digit. unfold strconv.isDigit in Hc.
      apply andb_true_iff in Hc as [Hlo _]. apply Nat.leb_le in Hlo. lia.
Qed.

(** What strconv.ParseInt and strconv.ParseUint accept lies within 64
    bits. *)
Lemma ParseInt_range raw n :
  (strconv.ParseInt raw = Some n -> - 2 ^ 63 <= n < 2 ^ 63) /\
  (strconv.ParseUint raw = Some n -> 0 <= n < 2 ^ 64).
Proof.
  split.
  - unfold strconv.ParseInt. destruct raw as [|c s]; [done|]. cbv zeta.
    destruct (if Ascii.eqb c "+" || Ascii.eqb c "-" then s
              else String.String c s) as [|c' s']; [done|].
    destruct (strconv.digits 0 _) as [un|] eqn:Hd; [|done].
    apply digits_lower_bound in Hd; [|done].
    destruct (Ascii.eqb c "-"); cbn [negb andb].
    + destruct (2 ^ 63 <? un) eqn:Hlt; [done|]. apply Z.ltb_ge in Hlt.
      intros [= <-]. lia.
    + destruct (2 ^ 63 <=? un) eqn:Hle; [done|]. apply Z.leb_gt in Hle.
      intros [= <-]. lia.
  - unfold strconv.ParseUint. destruct raw as [|c s]; [done|].
    destruct (strconv.digits 0 _) as [un|] eqn:Hd; [|done].
    apply digits_lower_bound in Hd; [|done].
    destruct (un <? 2 ^ 64) eqn:Hlt; [|done]. apply Z.ltb_lt in Hlt.
    intros [= <-]. lia.
Qed.

(** decodeInt and decodeUint on a pointer to an integer of their kind
    never panic.  When strconv rejects the raw value (no base-10 integer
    text, or a value outside 64 bits) they store nothing and return an
    UnmarshalTypeError with the raw value and [rv.Type()], the pointer
    type; otherwise they store the value converted to the width of the
    field, without a range check. *)
Lemma decodeInt_decodeUint_outcomes t raw (v0 : value F) :
  (signedInt t = true ->
   decodeInt (of_string raw) (Addr t v0)
   = match strconv.ParseInt raw with
     | Some n => (Addr t (VInt (wrap_signed (Bits t) n)), Return None)
     | None =>
         (Addr t v0, Return (Some (TypeError (mkError raw (PtrTo t)))))
     end) /\
  (unsignedInt t = true ->
   decodeUint (of_string raw) (Addr t v0)
   = match strconv.ParseUint raw with
     | Some n => (Addr t (VUint (wrap_unsigned (Bits t) n)), Return None)
     | None =>
         (Addr t v0, Return (Some (TypeError (mkError raw (PtrTo t)))))
     end).
Proof.
  split; intros Hk.
  - destruct t; try done;
      unfold decodeInt, scalarGuard; cbn [Value_Type Addr Kind];
      by destruct (strconv.ParseInt raw).
  - destruct t; try done;
      unfold decodeUint, scalarGuard; cbn [Value_Type Addr Kind];
      by destruct (strconv.ParseUint raw).
Qed.

(** decodeMap builds one entry per map-key of the property.  On a
    pointer to a map from strings to scalars, when the first raw value
    under every map-key converts, decodeMap returns no error and the
    field becomes a map with exactly the map-keys of the property, each
    bound to the conversion of its first raw value. *)
Theorem decodeMap_one_entry_per_key p elem (v0 : value F) :
  scalar elem = true ->
  (forall k raws, vals p !! k = Some raws ->
                  is_Some (head raws ≫= convert (F:=F) elem)) ->
  exists m', decodeMap (of_property p) (Addr (MapOf string_ elem) v0)
             = (Addr (MapOf string_ elem) (VMap (Some m')), Return None) /\
    forall k, m' !! k
              = vals p !! k ≫= fun raws => head raws ≫= convert (F:=F) elem.
Proof. apply decodeMap_scalar. Qed.

(** A scalar field takes the first raw value, however many there are.
    For a scalar field that is neither excluded nor the origin name,
    whose property has a first raw value under the empty map-key that
    converts, the step of decodeStruct stores that conversion and
    returns no error, whatever values follow the first. *)
Theorem scalar_field_takes_first_value (d : decoder F) s sf fv prop raw rest v :
  scalar (Type_ sf) = true -> skipped L sf = false ->
  (Type_ sf = string_ -> Name sf <> "ININame") ->
  section_get L s (fieldName L sf) = inl prop ->
  size (vals prop) <> 0%nat ->
  property_get L prop "" = raw :: rest ->
  convert (Type_ sf) raw = Some v ->
  decodeField L d s sf fv = (v, Return None).
Proof.
  intros Hsc Hskip Hname Hget Hsize Hraws Hconv.
  rewrite (decodeField_scalar d s sf fv Hsc Hskip Hname), Hget.
  unfold bindScalar. rewrite bool_decide_eq_false_2 by done.
  by rewrite Hraws, Hconv.
Qed.

(** A property without values.  When the property that [s.get] returns
    has no values, the step of decodeStruct leaves a scalar field and a
    collection of scalars as they are and returns no error; a keyed
    collection of scalars is replaced by a fresh empty map, whatever it
    held. *)
Theorem field_without_values (d : decoder F) s sf fv prop :
  skipped L sf = false ->
  section_get L s (fieldName L sf) = inl prop ->
  vals prop = ∅ -> property_get L prop "" = [] ->
  (scalar (Type_ sf) = true -> (Type_ sf = string_ -> Name sf <> "ININame") ->
   decodeField L d s sf fv = (fv, Return None)) /\
  (forall elem, Type_ sf = SliceOf elem ->
   decodeField L d s sf fv = (fv, Return None)) /\
  (forall elem, Type_ sf = MapOf string_ elem -> scalar elem = true ->
   decodeField L d s sf fv = (VMap (Some ∅), Return None)).
Proof.
  intros Hskip Hget Hvals Hraws. split_and!.
  - intros Hsc Hname.
    rewrite (decodeField_scalar d s sf fv Hsc Hskip Hname), Hget.
    unfold bindScalar. by rewrite Hvals, map_size_empty.
  - intros elem Ht. unfold decodeField. unfold skipped in Hskip.
    fold (fieldName L sf). rewrite Hskip, Ht, Hget, Hraws.
    cbn [Kind Elem fmap option_fmap option_map].
    by destruct (Kind elem).
  - intros elem Ht Hsc. unfold decodeField. unfold skipped in Hskip.
    fold (fieldName L sf). rewrite Hskip, Ht, Hget.
    cbn [Kind Elem fmap option_fmap option_map].
    destruct (decodeMap_scalar prop elem fv Hsc) as (m' & Hdec & Hm').
    { intros k raws. by rewrite Hvals, lookup_empty. }
    assert (m' = ∅) as ->.
    { apply map_eq. intros k. by rewrite Hm', Hvals, !lookup_empty. }
    rewrite Hdec. by destruct elem.
Qed.

(** * Further properties of the decoder *)

(** ** Running a loop again *)

Lemma overwrites_settled step :
  (forall sf, overwrites (step sf)) -> settled step.
Proof.
  intros Hall sf v v' r Hs. destruct (Hall sf) as (c & r0 & Hc).
  rewrite Hc in Hs. injection Hs as <- <-. rewrite Hc.
  by destruct c.
Qed.

Lemma forFields_settled step fields vs vs' r :
  settled step ->
  forFields step fields vs = (vs', r) -> forFields step fields vs' = (vs', r).
Proof.
  intros Hst. revert vs vs'.
  induction fields as [|sf fields IH]; intros [|v vs] vs'; cbn [forFields];
    try (by intros [= <- <-]).
  destruct (step sf v) as [v1 r1] eqn:Hs. pose proof (Hst _ _ _ _ Hs) as Hs'.
  destruct r1 as [[e|]|].
  - intros [= <- <-]. cbn [forFields]. by rewrite Hs'.
  - destruct (forFields step fields vs) as [vs1 r'] eqn:Hrest.
    intros [= <- <-]. cbn [forFields]. by rewrite Hs', (IH _ _ Hrest).
  - intros [= <- <-]. cbn [forFields]. by rewrite Hs'.
Qed.

(** ** What a decoder leaves behind a pointer to a field *)

Lemma overwrites_keep r (f : value F -> value F * outcome) :
  (forall fv, f fv = (fv, r)) -> overwrites f.
Proof. intros H. by exists None, r. Qed.

Lemma overwrites_put c r (f : value F -> value F * outcome) :
  (forall fv, f fv = (c, r)) -> overwrites f.
Proof. intros H. by exists (Some c), r. Qed.

Lemma Elem_Set_overwrites t conv :
  overwrites (fun fv : value F => through fv (Elem_Set F (Addr t fv) conv)).
Proof.
  unfold Elem_Set, Addr, through. destruct (conv t) as [v'|].
  - by exists (Some v'), (Return None).
  - by exists None, Panic.
Qed.

Lemma decodeString_overwrites i t :
  overwrites (fun fv : value F => through fv (decodeString i (Addr t fv))).
Proof.
  unfold decodeString, scalarGuard. cbn [Value_Type Addr Kind].
  destruct i as [raw| | | | |];
    try (eapply overwrites_keep; intros ?; unfold through, Addr; cbn [fst snd pointee]; reflexivity).
  apply Elem_Set_overwrites.
Qed.

Lemma decodeInt_overwrites i t :
  overwrites (fun fv : value F => through fv (decodeInt i (Addr t fv))).
Proof.
  unfold decodeInt, scalarGuard. cbn [Value_Type Addr Kind].
  destruct i as [raw| | | | |];
    try (eapply overwrites_keep; intros ?; unfold through, Addr; cbn [fst snd pointee]; reflexivity).
  destruct (strconv.ParseInt raw).
  - apply Elem_Set_overwrites.
  - eapply overwrites_keep; intros ?; unfold through, Addr; cbn [fst snd pointee]; reflexivity.
Qed.

Lemma decodeUint_overwrites i t :
  overwrites (fun fv : value F => through fv (decodeUint i (Addr t fv))).
Proof.
  unfold decodeUint, scalarGuard. cbn [Value_Type Addr Kind].
  destruct i as [raw| | | | |];
    try (eapply overwrites_keep; intros ?; unfold through, Addr; cbn [fst snd pointee]; reflexivity).
  destruct (strconv.ParseUint raw).
  - apply Elem_Set_overwrites.
  - eapply overwrites_keep; intros ?; unfold through, Addr; cbn [fst snd pointee]; reflexivity.
Qed.

Lemma decodeBool_overwrites i t :
  overwrites (fun fv : value F => through fv (decodeBool i (Addr t fv))).
Proof.
  unfold decodeBool, scalarGuard. cbn [Value_Type Addr Kind].
  destruct i as [raw| | | | |];
    try (eapply overwrites_keep; intros ?; unfold through, Addr; cbn [fst snd pointee]; reflexivity).
  destruct (strconv.ParseBool raw).
  - apply Elem_Set_overwrites.
  - eapply overwrites_keep; intros ?; unfold through, Addr; cbn [fst snd pointee]; reflexivity.
Qed.

Lemma decodeFloat_overwrites i t :
  overwrites (fun fv : value F => through fv (decodeFloat i (Addr t fv))).
Proof.
  unfold decodeFloat, scalarGuard. cbn [Value_Type Addr Kind].
  destruct i as [raw| | | | |];
    try (eapply overwrites_keep; intros ?; unfold through, Addr; cbn [fst snd pointee]; reflexivity).
  destruct (ParseFloat F raw).
  - apply Elem_Set_overwrites.
  - eapply overwrites_keep; intros ?; unfold through, Addr; cbn [fst snd pointee]; reflexivity.
Qed.

Lemma decodeSlice_overwrites (X : decoder F) i t :
  overwrites (fun fv : value F => through fv (decodeSlice_ X i (Addr t fv))).
Proof.
  unfold decodeSlice_. cbn [Value_Type Addr Kind].
  destruct (TypeOf_Kind i); try (eapply overwrites_keep; intros ?; unfold through, Addr; cbn [fst snd pointee]; reflexivity).
  destruct (Elem t) as [elem|]; [|eapply overwrites_keep; intros ?; unfold through, Addr; cbn [fst snd pointee]; reflexivity].
  destruct (sliceDecoderFunc F X (Kind elem)) as [d|];
    [|eapply overwrites_keep; intros ?; unfold through, Addr; cbn [fst snd pointee]; reflexivity].
  destruct t; try (eapply overwrites_keep; intros ?; unfold through, Addr; cbn [fst snd pointee]; reflexivity).
  destruct (decodeElems d elem (elements i)) as [vv [[e|]|]].
  - eapply overwrites_keep; intros ?; unfold through, Addr; cbn [fst snd pointee]; reflexivity.
  - eapply overwrites_put; intros ?; unfold through, Addr; cbn [fst snd pointee]; reflexivity.
  - eapply overwrites_keep; intros ?; unfold through, Addr; cbn [fst snd pointee]; reflexivity.
Qed.

Lemma decodeMap_overwrites i t :
  overwrites (fun fv : value F => through fv (decodeMap i (Addr t fv))).
Proof.
  unfold decodeMap. cbn [Value_Type Addr Kind].
  destruct i as [| | | |p|]; try (eapply overwrites_keep; intros ?; unfold through, Addr; cbn [fst snd pointee]; reflexivity).
  destruct (Elem t) as [elem|]; [|eapply overwrites_keep; intros ?; unfold through, Addr; cbn [fst snd pointee]; reflexivity].
  destruct (mapDecoderFunc F (Kind elem)) as [d|];
    [|eapply overwrites_keep; intros ?; unfold through, Addr; cbn [fst snd pointee]; reflexivity].
  destruct t; try (eapply overwrites_keep; intros ?; unfold through, Addr; cbn [fst snd pointee]; reflexivity).
  destruct (decodeEntries d _ elem (map_to_list (vals p)) ∅) as [vv [[e|]|]].
  - eapply overwrites_keep; intros ?; unfold through, Addr; cbn [fst snd pointee]; reflexivity.
  - eapply overwrites_put; intros ?; unfold through, Addr; cbn [fst snd pointee]; reflexivity.
  - eapply overwrites_keep; intros ?; unfold through, Addr; cbn [fst snd pointee]; reflexivity.
Qed.

Lemma decodeProp_overwrites (d : decoder F) s t ft :
  (forall i, overwrites (fun fv : value F => through fv (d i (Addr ft fv)))) ->
  overwrites (decodeProp L d s t ft).
Proof.
  intros Hd. unfold decodeProp.
  destruct (section_get L s (tag_name t)) as [prop|err];
    [|by eapply overwrites_keep].
  case_bool_decide; [by eapply overwrites_keep|].
  destruct (property_get L prop "") as [|val rest];
    [by eapply overwrites_keep|].
  apply Hd.
Qed.

(** Whatever the body of the loop of decodeStruct does to a field, it
    does without looking at what the field held. *)
Lemma decodeField_overwrites (X : decoder F) s sf :
  overwrites (decodeField L (decodeSlice_ X) s sf).
Proof.
  unfold decodeField.
  destruct (String.eqb (tag_name (newTag L sf)) "-");
    [by eapply overwrites_keep|].
  destruct (Kind (Type_ sf)) eqn:Hk;
    try (by eapply overwrites_keep);
    try (apply decodeProp_overwrites; intros i;
         first [apply decodeInt_overwrites | apply decodeUint_overwrites
               |apply decodeFloat_overwrites | apply decodeBool_overwrites
               |apply decodeString_overwrites]).
  - destruct (Kind <$> Elem (Type_ sf)) as [[]|];
      try (by eapply overwrites_keep);
      (destruct (section_get L s (tag_name (newTag L sf))) as [prop|err];
        [|by eapply overwrites_keep]; apply decodeMap_overwrites).
  - destruct (Kind <$> Elem (Type_ sf)) as [[]|];
      try (by eapply overwrites_keep);
      (destruct (section_get L s (tag_name (newTag L sf))) as [prop|err];
        [|by eapply overwrites_keep];
        case_bool_decide; [by eapply overwrites_keep|];
        apply decodeSlice_overwrites).
  - destruct (String.eqb (Name sf) "ININame").
    + apply decodeString_overwrites.
    + apply decodeProp_overwrites; intros i; apply decodeString_overwrites.
Qed.

Lemma decodeStruct_settled_ (X : decoder F) i rv rv' r :
  decodeStruct_ L (decodeSlice_ X) i rv = (rv', r) ->
  decodeStruct_ L (decodeSlice_ X) i rv' = (rv', r).
Proof.
  unfold decodeStruct_.
  destruct rv as [|t v]; cbn [Value_Type]; [by intros [= <- <-]|].
  destruct i as [| |s| | |]; try (by intros [= <- <-]).
  destruct (Kind t) eqn:Hk; try (by intros [= <- <-]; cbn [Value_Type]; rewrite Hk).
  destruct t as [| | | | | | | | | | | | | | | |t| |];
    try (by intros [= <- <-]; cbn [Value_Type]; rewrite ?Hk).
  destruct t as [| | | | | | | | | | | | | | | | |fields|];
    try (by intros [= <- <-]).
  destruct v as [| | | | | | |[w|]| |]; try (by intros [= <- <-]).
  destruct w as [| | | | | | | |vs|]; try (by intros [= <- <-]).
  destruct (forFields _ fields vs) as [vs' r'] eqn:Hloop.
  intros [= <- <-]. cbn [Value_Type Kind].
  erewrite forFields_settled; [done| |exact Hloop].
  apply overwrites_settled. intros sf. apply decodeField_overwrites.
Qed.

Lemma overwrites_again (f : value F -> value F * outcome) v v' r :
  overwrites f -> f v = (v', r) -> f v' = (v', r).
Proof.
  intros (c & r0 & Hc) Hs. rewrite Hc in Hs. injection Hs as <- <-.
  rewrite Hc. by destruct c.
Qed.

(** decodeStruct hands back the pointer it was given, to what it left
    in the struct. *)
Lemma decodeStruct_Addr (d : decoder F) i t fv :
  exists fv', (decodeStruct_ L d i (Addr t fv)).1 = Addr t fv'.
Proof.
  unfold decodeStruct_. cbn [Value_Type Addr Kind].
  destruct i as [| |s| | |]; try (by exists fv).
  destruct t as [| | | | | | | | | | | | | | | | |fields|]; try (by exists fv).
  destruct fv as [| | | | | | | |vs|]; try (by eexists).
  destruct (forFields _ fields vs) as [vs' r']. by exists (VStruct vs').
Qed.

Lemma decodeStruct_through_settled (X : decoder F) i t fv fv' r :
  through fv (decodeStruct_ L (decodeSlice_ X) i (Addr t fv)) = (fv', r) ->
  through fv' (decodeStruct_ L (decodeSlice_ X) i (Addr t fv')) = (fv', r).
Proof.
  destruct (decodeStruct_Addr (decodeSlice_ X) i t fv) as [w Hw].
  destruct (decodeStruct_ L (decodeSlice_ X) i (Addr t fv)) as [rv' r'] eqn:Hd.
  cbn [fst] in Hw. subst rv'. unfold through at 1. cbn [fst snd pointee Addr].
  intros [= -> ->]. apply decodeStruct_settled_ in Hd.
  unfold through. by rewrite Hd.
Qed.

Lemma decodeSection_settled tree : settled (F:=F) (decodeSection L tree).
Proof.
  intros sf v v' r. unfold decodeSection.
  destruct (String.eqb (tag_name (newTag L sf)) "-"); [by intros [= <- <-]|].
  destruct (Kind (Type_ sf)); try (by intros [= <- <-]).
  - destruct (Kind <$> Elem (Type_ sf)) as [[]|]; try (by intros [= <- <-]).
    destruct (parseTree_get L tree (tag_name (newTag L sf))) as [val|err];
      [|by intros [= <- <-]].
    case_bool_decide; [by intros [= <- <-]|].
    apply (overwrites_again
             (fun fv => through fv (decodeSlice L (of_sections val)
                                      (Addr (Type_ sf) fv)))).
    apply decodeSlice_overwrites.
  - destruct (parseTree_get L tree (tag_name (newTag L sf))) as [[|val rest]|err];
      try (by intros [= <- <-]).
    apply decodeStruct_through_settled.
Qed.

(** No top-level field is bound by both passes of decode: the pass over
    the global properties leaves structs and slices of structs alone,
    the pass over the sections leaves everything else alone. *)
Lemma decode_passes_disjoint tree sf :
  idle (F:=F) (decodeField L (decodeSlice L) (global tree) sf) \/
  idle (F:=F) (decodeSection L tree sf).
Proof.
  unfold idle, decodeField, decodeSection.
  destruct (String.eqb (tag_name (newTag L sf)) "-"); [by left|].
  destruct (Kind (Type_ sf)); try (by left); try (by right).
  destruct (Kind <$> Elem (Type_ sf)) as [[]|]; try (by left); by right.
Qed.

Lemma forFields_two_passes (G S : StructField type -> value F -> value F * outcome)
    fields vs vs1 vs2 r2 :
  settled G -> settled S -> (forall sf, idle (G sf) \/ idle (S sf)) ->
  forFields G fields vs = (vs1, Return None) ->
  forFields S fields vs1 = (vs2, r2) ->
  forFields G fields vs2 = (vs2, Return None).
Proof.
  intros HG HS Hdis. revert vs vs1 vs2.
  induction fields as [|sf fields IH]; intros [|v vs] vs1 vs2; cbn [forFields];
    try (by intros [= <-] [= <- <-]).
  destruct (G sf v) as [v1 r1] eqn:Hg.
  destruct r1 as [[e|]|]; try done.
  destruct (forFields G fields vs) as [vs1' r1'] eqn:Hrest.
  intros [= <- ->]. cbn [forFields].
  destruct (S sf v1) as [v2 rr] eqn:Hs.
  assert (G sf v2 = (v2, Return None)) as Hg2.
  { destruct (Hdis sf) as [Hi|Hi]; [apply Hi|].
    rewrite Hi in Hs. injection Hs as <- <-. by apply (HG _ _ _ _ Hg). }
  destruct rr as [[e|]|].
  - intros [= <- <-]. cbn [forFields]. rewrite Hg2.
    by rewrite (forFields_settled _ _ _ _ _ HG Hrest).
  - destruct (forFields S fields vs1') as [vs2' r2'] eqn:Hrest2.
    intros [= <- <-]. cbn [forFields]. rewrite Hg2.
    by rewrite (IH _ _ _ Hrest Hrest2).
  - intros [= <- <-]. cbn [forFields]. rewrite Hg2.
    by rewrite (forFields_settled _ _ _ _ _ HG Hrest).
Qed.

Lemma decode_settled tree rv rv' r :
  decode L tree rv = (rv', r) -> decode L tree rv' = (rv', r).
Proof.
  unfold decode.
  destruct rv as [|t v]; cbn [Value_Type]; [by intros [= <- <-]|].
  destruct (Kind t) eqn:Hk;
    try (by intros [= <- <-]; cbn [Value_Type]; rewrite Hk).
  destruct t as [| | | | | | | | | | | | | | | |st| |];
    try (by intros [= <- <-]; cbn [Value_Type]; rewrite ?Hk).
  destruct v as [| | | | | | |[w|]| |]; try (by intros [= <- <-]).
  destruct (Kind st) eqn:Hst;
    try (by intros [= <- <-]; cbn [Value_Type Kind]; rewrite Hst).
  change (Val (PtrTo st) (VPtr (Some w))) with (Addr st w).
  destruct (decodeStruct_Addr (decodeSlice_ (fun _ rv => (rv, Panic)))
              (of_section (global tree)) st w) as [w1 Hw1].
  fold (decodeStruct (F:=F) L) in Hw1.
  destruct (decodeStruct L (of_section (global tree)) (Addr st w))
    as [rv1 r1] eqn:Hglobal.
  cbn [fst] in Hw1. subst rv1.
  pose proof (decodeStruct_settled_ _ _ _ _ _ Hglobal) as Hglobal'.
  fold (decodeStruct (F:=F) L) in Hglobal'.
  destruct r1 as [[e|]|].
  - intros [= <- <-]. cbn [Value_Type Addr Kind]. rewrite Hst.
    change (Val (PtrTo st) (VPtr (Some w1))) with (Addr st w1).
    by rewrite Hglobal'.
  - assert (exists fields vs vs1,
              st = StructOf fields /\ w1 = VStruct vs1 /\
              forFields (decodeField L (decodeSlice L) (global tree)) fields vs
              = (vs1, Return None)) as (fields & vs & vs1 & -> & -> & Hpass).
    { rewrite decodeStruct_unfold in Hglobal. unfold decodeStruct_ in Hglobal.
      cbn [Value_Type Addr Kind] in Hglobal.
      destruct st as [| | | | | | | | | | | | | | | | |fields|]; try done.
      destruct w as [| | | | | | | |vs|]; try done.
      destruct (forFields _ fields vs) as [a b] eqn:Hloop.
      unfold Addr in Hglobal. injection Hglobal as <- ->.
      by exists fields, vs, a. }
    cbn [pointee Addr].
    destruct (forFields (decodeSection L tree) fields vs1) as [vs2 r2] eqn:Hsec.
    intros [= <- <-]. cbn [Value_Type Kind].
    assert (forFields (decodeField L (decodeSlice L) (global tree)) fields vs2
            = (vs2, Return None)) as Hpass2.
    { eapply forFields_two_passes; [| |apply decode_passes_disjoint| |]; eauto.
      - apply overwrites_settled. intros sf. apply decodeField_overwrites.
      - apply decodeSection_settled. }
    rewrite decodeStruct_unfold. unfold decodeStruct_.
    cbn [Value_Type Addr Kind]. rewrite Hpass2. cbn [pointee].
    by rewrite (forFields_settled _ _ _ _ _ (decodeSection_settled tree) Hsec).
  - intros [= <- <-]. cbn [Value_Type Addr Kind]. rewrite Hst.
    change (Val (PtrTo st) (VPtr (Some w1))) with (Addr st w1).
    by rewrite Hglobal'.
Qed.


(** ** A top-level collection of records *)

(** The loop of decodeSlice ends without error exactly when every
    element decodes into a zero value, and then the fresh slice holds
    what the decoder left in each, in order. *)
Lemma decodeElems_ok (d : decoder F) elem vals elems :
  decodeElems d elem vals = (elems, Return None) <->
  Forall2 (fun val e => exists rv, d val (Addr elem (Zero F elem)) = (rv, Return None)
                                   /\ e = pointee (Zero F elem) rv) vals elems.
Proof.
  revert elems. induction vals as [|val vals IH]; intros elems; cbn [decodeElems].
  - split.
    + intros [= <-]. constructor.
    + intros H. by inversion H.
  - destruct (d val (Addr elem (Zero F elem))) as [sv r] eqn:Hd. split.
    + destruct r as [[e|]|]; try done.
      destruct (decodeElems d elem vals) as [vs r'] eqn:Hrest.
      intros [= <- ->]. constructor; [by exists sv|]. by apply IH.
    + intros H. inversion H as [|? e0 ? rest (rv & Hrv & ->) Hall]; subst.
      rewrite Hd in Hrv. injection Hrv as -> ->.
      apply IH in Hall. by rewrite Hall.
Qed.

Lemma decodeSlice_sections group elem fv :
  Kind elem = reflect.Struct ->
  forall rv', decodeSlice L (of_sections group) (Addr (SliceOf elem) fv)
              = (rv', Return None) <->
    exists elems, rv' = Addr (SliceOf elem) (VSlice (Some elems)) /\
      Forall2 (fun s e => decodeStruct L (of_section s) (Addr elem (Zero F elem))
                          = (Addr elem e, Return None)) group elems.
Proof.
  intros Hk rv'. unfold decodeSlice, decodeSlice_.
  cbn [Value_Type Addr Kind TypeOf_Kind Elem elements].
  rewrite Hk. cbn [sliceDecoderFunc].
  assert (forall elems,
    Forall2 (fun val e => exists rv,
               decodeStruct L val (Addr elem (Zero F elem)) = (rv, Return None)
               /\ e = pointee (Zero F elem) rv) (of_section <$> group) elems <->
    Forall2 (fun s e => decodeStruct L (of_section s) (Addr elem (Zero F elem))
                        = (Addr elem e, Return None)) group elems) as Hrel.
  { intros elems. rewrite Forall2_fmap_l.
    split; intros Hall; (eapply Forall2_impl; [exact Hall|]); cbn beta;
      intros s e; unfold compose.
    - intros (rv & Hrv & ->).
      destruct (decodeStruct_Addr (decodeSlice_ (fun _ rv => (rv, Panic)))
                  (of_section s) elem (Zero F elem)) as [w Hw].
      fold (decodeStruct (F:=F) L) in Hw. rewrite Hrv in Hw. cbn [fst] in Hw.
      by subst rv.
    - intros Hd. by eexists. }
  destruct (decodeElems (decodeStruct L) elem (of_section <$> group))
    as [vv r] eqn:Hloop.
  split.
  - destruct r as [[e|]|]; try done. intros [= <-].
    exists vv. split; [done|]. by apply Hrel, decodeElems_ok.
  - intros (elems & -> & Hall). apply Hrel, decodeElems_ok in Hall.
    rewrite Hloop in Hall. by injection Hall as -> ->.
Qed.

(** X7.  A top-level collection of nested records.  Let field [j] of the
    destination be a slice of structs that the name [-] does not
    exclude, and let [group] be what [tree.get] returns for its name.
    When [group] is empty the field keeps its value, however decode
    ends.  When it is not, the step of the field returns nil exactly
    when every section of [group] decodes into a zero struct, and after
    a decode that returned nil the field is a fresh slice with one
    element per section of [group], in the order of [group], each
    decoded from the zero struct. *)
Theorem decode_collection_of_records tree fields vs j sf fv elem group :
  fields !! j = Some sf -> vs !! j = Some fv ->
  Type_ sf = SliceOf elem -> Kind elem = reflect.Struct ->
  skipped L sf = false ->
  parseTree_get L tree (fieldName L sf) = inl group ->
  let res := decode L tree (Addr (StructOf fields) (VStruct vs)) in
  let record s e :=
    decodeStruct L (of_section s) (Addr elem (Zero F elem))
    = (Addr elem e, Return None) in
  exists vs', res.1 = Addr (StructOf fields) (VStruct vs') /\
    (group = [] -> vs' !! j = Some fv) /\
    (group <> [] ->
       ((decodeSection L tree sf fv).2 = Return None <->
        exists elems, Forall2 record group elems) /\
       (res.2 = Return None ->
        exists elems, vs' !! j = Some (VSlice (Some elems)) /\
                      Forall2 record group elems)).
Proof.
  intros Hsf Hv Ht Hk Hskip Hget res record.
  assert (decodeSection L tree sf fv
          = if bool_decide (length group = 0%nat) then (fv, Return None)
            else through fv (decodeSlice L (of_sections group)
                               (Addr (SliceOf elem) fv))) as Hstep.
  { unfold decodeSection. unfold skipped in Hskip. fold (fieldName L sf).
    rewrite Hskip, Ht. cbn [Kind Elem fmap option_fmap option_map].
    by rewrite Hk, Hget. }
  pose proof (decodeField_slice_of_struct (decodeSlice L) (global tree) sf fv
                elem Ht Hk) as Hglob.
  subst res. rewrite decode_fields.
  destruct (forFields (decodeField L (decodeSlice L) (global tree)) fields vs)
    as [vs1 r1] eqn:Hpass1.
  assert (vs1 !! j = Some fv) as Hv1.
  { pose proof (forFields_field (decodeField L (decodeSlice L) (global tree))
                  fields vs j sf fv Hsf Hv) as Hf.
    rewrite Hpass1, Hglob in Hf. simpl in Hf. by destruct Hf. }
  assert (group <> [] ->
          (decodeSection L tree sf fv).2 = Return None <->
          exists elems, Forall2 record group elems) as Hiff.
  { intros Hne. rewrite Hstep.
    rewrite bool_decide_eq_false_2 by (by destruct group).
    unfold through. cbn [snd].
    destruct (decodeSlice L (of_sections group) (Addr (SliceOf elem) fv))
      as [rv' r'] eqn:Hd. cbn [snd]. split.
    - intros ->. apply (decodeSlice_sections group elem fv Hk) in Hd as (elems & _ & Hall). by exists elems.
    - intros (elems & Hall).
      assert (decodeSlice L (of_sections group) (Addr (SliceOf elem) fv)
              = (Addr (SliceOf elem) (VSlice (Some elems)), Return None)) as Hd'.
      { apply (decodeSlice_sections group elem fv Hk). by exists elems. }
      rewrite Hd in Hd'. by injection Hd' as _ ->. }
  destruct r1 as [[e|]|].
  - exists vs1. split; [done|]. split; [done|]. intros Hne. split; [auto|done].
  - destruct (forFields (decodeSection L tree) fields vs1) as [vs2 r2] eqn:Hpass2.
    exists vs2. split; [done|]. split.
    + intros ->.
      pose proof (forFields_field (decodeSection L tree) fields vs1 j sf fv
                    Hsf Hv1) as Hf.
      rewrite Hpass2, Hstep in Hf. simpl in Hf. by destruct Hf.
    + intros Hne. split; [auto|]. simpl. intros ->.
      destruct (forFields_ok _ _ _ _ j sf fv Hpass2 Hsf Hv1) as [Hj Hr].
      rewrite Hstep in Hj, Hr.
      rewrite bool_decide_eq_false_2 in Hj, Hr by (by destruct group).
      unfold through in Hj, Hr. cbn [fst snd] in Hj, Hr.
      destruct (decodeSlice L (of_sections group) (Addr (SliceOf elem) fv))
        as [rv' r'] eqn:Hd. cbn [fst snd] in Hj, Hr. subst r'.
      apply (decodeSlice_sections group elem fv Hk) in Hd as (elems & -> & Hall).
      exists elems. by split.
  - exists vs1. split; [done|]. split; [done|]. intros Hne. split; [auto|done].
Qed.

(** ** Fields the decoder never binds *)

Lemma decodeField_idle (d : decoder F) s sf :
  skipped L sf = true \/ hasCase (Kind (Type_ sf)) = false \/
  ofStructs (Type_ sf) = true ->
  idle (decodeField L d s sf).
Proof.
  intros Hwhy fv. unfold decodeField. unfold skipped, fieldName in Hwhy.
  destruct (String.eqb (tag_name (newTag L sf)) "-"); [done|].
  destruct Hwhy as [Hs|[Hc|Hn]]; [done| |].
  - by destruct (Kind (Type_ sf)).
  - unfold ofStructs in Hn.
    destruct (Kind (Type_ sf)); try done;
      by destruct (Kind <$> Elem (Type_ sf)) as [[]|].
Qed.

Lemma decodeSection_idle tree sf :
  skipped L sf = true \/
  (Kind (Type_ sf) <> reflect.Struct /\
   (Kind (Type_ sf) = reflect.Slice ->
    Kind <$> Elem (Type_ sf) <> Some reflect.Struct)) ->
  idle (F:=F) (decodeSection L tree sf).
Proof.
  intros Hwhy fv. unfold decodeSection. unfold skipped, fieldName in Hwhy.
  destruct (String.eqb (tag_name (newTag L sf)) "-"); [done|].
  destruct Hwhy as [Hs|[Hk Hn]]; [done|].
  destruct (Kind (Type_ sf)); try done.
  destruct (Kind <$> Elem (Type_ sf)) as [[]|]; try done.
  by destruct Hn.
Qed.

Lemma forFields_idle step fields vs j sf v :
  fields !! j = Some sf -> vs !! j = Some v -> idle (step sf) ->
  (forFields step fields vs).1 !! j = Some v.
Proof.
  intros Hsf Hv Hi.
  destruct (forFields_field step fields vs j sf v Hsf Hv) as [H|H]; [done|].
  by rewrite Hi in H.
Qed.

(** X8.  Fields that are never bound.  A field excluded by the name
    [-], a field of a kind the switch of decodeStruct has no case for
    (a pointer, an array, a nested struct, ...), and a slice or map of
    structs keep their value through decodeStruct, however it ends:
    below the top level no record and no collection of records is ever
    filled.  Through decode the same holds for an excluded field, for a
    field of a kind without a case other than a struct, and for a map
    of structs. *)
Theorem fields_never_bound tree s fields vs j sf fv :
  fields !! j = Some sf -> vs !! j = Some fv ->
  (skipped L sf = true \/ hasCase (Kind (Type_ sf)) = false \/
   ofStructs (Type_ sf) = true ->
   exists vs',
     (decodeStruct L (of_section s) (Addr (StructOf fields) (VStruct vs))).1
     = Addr (StructOf fields) (VStruct vs') /\ vs' !! j = Some fv) /\
  (skipped L sf = true \/
   (hasCase (Kind (Type_ sf)) = false /\ Kind (Type_ sf) <> reflect.Struct) \/
   (Kind (Type_ sf) = reflect.Map /\ ofStructs (Type_ sf) = true) ->
   exists vs',
     (decode L tree (Addr (StructOf fields) (VStruct vs))).1
     = Addr (StructOf fields) (VStruct vs') /\ vs' !! j = Some fv).
Proof.
  intros Hsf Hv. split.
  - intros Hwhy. rewrite decodeStruct_fields. cbn [fst].
    eexists. split; [done|].
    by apply (forFields_idle _ _ _ _ sf), decodeField_idle.
  - intros Hwhy.
    assert (idle (F:=F) (decodeField L (decodeSlice L) (global tree) sf)) as HG.
    { apply decodeField_idle. destruct Hwhy as [?|[[? _]|[_ ?]]]; auto. }
    assert (idle (F:=F) (decodeSection L tree sf)) as HS.
    { apply decodeSection_idle. destruct Hwhy as [?|[[Hc Hk]|[Hk _]]]; auto.
      - right. split; [done|]. intros Hsl. by rewrite Hsl in Hc.
      - right. rewrite Hk. by split. }
    rewrite decode_fields.
    pose proof (forFields_idle _ fields vs j sf fv Hsf Hv HG) as H1.
    destruct (forFields (decodeField L (decodeSlice L) (global tree)) fields vs)
      as [vs1 r1]. cbn [fst] in H1.
    pose proof (forFields_idle _ fields vs1 j sf fv Hsf H1 HS) as H2.
    destruct (forFields (decodeSection L tree) fields vs1) as [vs2 r2].
    cbn [fst] in H2.
    destruct r1 as [[e|]|]; by eexists.
Qed.

(** X9.  A top-level field that is neither a struct nor a slice of
    structs is bound from the global properties alone: no section of
    the tree reaches it.  However decode ends the field holds its old
    value or what the step of decodeStruct over the global properties
    left in it, and after a decode that returned nil it holds the
    latter and that step returned nil. *)
Theorem plain_field_bound_from_globals tree fields vs j sf fv :
  fields !! j = Some sf -> vs !! j = Some fv ->
  Kind (Type_ sf) <> reflect.Struct ->
  (Kind (Type_ sf) = reflect.Slice ->
   Kind <$> Elem (Type_ sf) <> Some reflect.Struct) ->
  let res := decode L tree (Addr (StructOf fields) (VStruct vs)) in
  let bound := decodeField L (decodeSlice L) (global tree) sf fv in
  exists vs', res.1 = Addr (StructOf fields) (VStruct vs') /\
    (vs' !! j = Some fv \/ vs' !! j = Some bound.1) /\
    (res.2 = Return None ->
     vs' !! j = Some bound.1 /\ bound.2 = Return None).
Proof.
  intros Hsf Hv Hk Hn res bound.
  assert (idle (F:=F) (decodeSection L tree sf)) as HS.
  { apply decodeSection_idle. by right. }
  subst res. rewrite decode_fields.
  pose proof (forFields_field (decodeField L (decodeSlice L) (global tree))
                fields vs j sf fv Hsf Hv) as H1.
  destruct (forFields (decodeField L (decodeSlice L) (global tree)) fields vs)
    as [vs1 r1] eqn:Hpass1. cbn [fst] in H1.
  destruct r1 as [[e|]|]; try (by exists vs1).
  destruct (forFields_ok _ _ _ _ j sf fv Hpass1 Hsf Hv) as [Hj Hr].
  pose proof (forFields_idle _ fields vs1 j sf _ Hsf Hj HS) as H2.
  destruct (forFields (decodeSection L tree) fields vs1) as [vs2 r2].
  cbn [fst] in H2. exists vs2. split; [done|]. split; [by right|done].
Qed.

(** ** A property with values under map-keys only *)

(** X10.  Index out of range.  The scalar cases of decodeStruct guard
    [vals[0]] by [len(prop.vals) == 0], which counts map-keys, not
    values.  When the property of a scalar field has map-keys but
    [prop.get] returns no value for the empty map-key (a field
    [Port int] given [Port[a]=1]), the step panics and stores nothing,
    so decodeStruct on a struct with such a field never returns nil. *)
Theorem keyed_property_on_scalar_field_panics s fields vs j sf fv prop :
  fields !! j = Some sf -> vs !! j = Some fv ->
  scalar (Type_ sf) = true -> skipped L sf = false ->
  (Type_ sf = string_ -> Name sf <> "ININame") ->
  section_get L s (fieldName L sf) = inl prop ->
  size (vals prop) <> 0%nat -> property_get L prop "" = [] ->
  decodeField L (decodeSlice L) s sf fv = (fv, Panic) /\
  (decodeStruct L (of_section s) (Addr (StructOf fields) (VStruct vs))).2
  <> Return None.
Proof.
  intros Hsf Hv Hsc Hskip Hname Hget Hsize Hraws.
  assert (decodeField L (decodeSlice L) s sf fv = (fv, Panic)) as Hstep.
  { rewrite (decodeField_scalar (decodeSlice L) s sf fv Hsc Hskip Hname), Hget.
    unfold bindScalar. rewrite bool_decide_eq_false_2 by done.
    by rewrite Hraws. }
  split; [done|]. rewrite decodeStruct_fields. cbn [snd].
  destruct (forFields (decodeField L (decodeSlice L) s) fields vs)
    as [vs' r] eqn:Hloop. cbn [snd]. intros ->.
  destruct (forFields_ok _ _ _ _ j sf fv Hloop Hsf Hv) as [_ Hr].
  by rewrite Hstep in Hr.
Qed.

(** ** The guards of the decoders *)

(** X11.  The guard every decoder starts with.  Given a destination
    that has a type but is not a pointer, each of the eight decoders
    returns an UnmarshalTypeError with the description of the source
    value and the type of the destination, and stores nothing; so do
    the five scalar decoders given a source value that is not a string,
    decodeSlice given one that is not a slice, decodeMap given one that
    is not a property and decodeStruct given one that is not a
    section, whatever typed destination they get. *)
Theorem decoders_refuse_what_they_cannot_take i t v :
  let refused (d : decoder F) :=
    d i (Val t v) = (Val t v, typeError i t) in
  (Kind t <> reflect.Ptr ->
   Forall refused [decodeString; decodeInt; decodeUint; decodeBool;
                   decodeFloat; decodeMap; decodeSlice L; decodeStruct L]) /\
  (TypeOf_Kind i <> reflect.String ->
   Forall refused [decodeString; decodeInt; decodeUint; decodeBool;
                   decodeFloat]) /\
  (TypeOf_Kind i <> reflect.Slice -> refused (decodeSlice L)) /\
  ((forall p, i <> of_property p) -> refused decodeMap) /\
  ((forall s, i <> of_section s) -> refused (decodeStruct L)).
Proof.
  intros refused. subst refused. cbv beta. split_and!.
  - intros Hk. repeat constructor;
      unfold decodeString, decodeInt, decodeUint, decodeBool, decodeFloat,
        scalarGuard, decodeMap, decodeSlice, decodeSlice_, decodeStruct,
        decodeStruct_;
      cbn [Value_Type]; destruct i; cbn [TypeOf_Kind];
      by destruct (Kind t).
  - intros Hi. repeat constructor;
      unfold decodeString, decodeInt, decodeUint, decodeBool, decodeFloat,
        scalarGuard; cbn [Value_Type]; by destruct i.
  - intros Hi. unfold decodeSlice, decodeSlice_. cbn [Value_Type].
    by destruct (TypeOf_Kind i).
  - intros Hi. unfold decodeMap. cbn [Value_Type].
    destruct i as [| | | |p|]; try done. by destruct (Hi p).
  - intros Hi. unfold decodeStruct, decodeStruct_. cbn [Value_Type].
    destruct i as [| |s| | |]; try done. by destruct (Hi s).
Qed.

(** ** Storing nothing on failure *)

Lemma Elem_Set_allOrNothing rv conv :
  (Elem_Set F rv conv).2 <> Return None -> (Elem_Set F rv conv).1 = rv.
Proof.
  unfold Elem_Set.
  destruct rv as [|t v]; [done|].
  destruct t as [| | | | | | | | | | | | | | | |t| |]; try done.
  destruct v as [| | | | | | |[w|]| |]; try done.
  by destruct (conv t).
Qed.

Lemma scalarGuard_allOrNothing i rv body :
  (forall s t, (body s t).2 <> Return None -> (body s t).1 = rv) ->
  (scalarGuard F i rv body).2 <> Return None ->
  (scalarGuard F i rv body).1 = rv.
Proof.
  intros Hb. unfold scalarGuard.
  destruct (Value_Type rv) as [t|]; [|done].
  destruct i as [s| | | | |]; try done.
  destruct (Kind t); try done. apply Hb.
Qed.

(** X12.  All or nothing.  The scalar decoders, decodeSlice and
    decodeMap build the new value aside and store it last: when one of
    them ends with an error or a panic, what the destination points to
    is as it was before the call.  (decodeStruct and decode give no
    such guarantee: they store field by field.) *)
Theorem failed_decoder_stores_nothing i rv :
  Forall (fun d : decoder F => allOrNothing d i rv)
    [decodeString; decodeInt; decodeUint; decodeBool; decodeFloat;
     decodeMap; decodeSlice L].
Proof.
  unfold allOrNothing. repeat constructor.
  - apply scalarGuard_allOrNothing. intros s t. apply Elem_Set_allOrNothing.
  - apply scalarGuard_allOrNothing. intros s t.
    destruct (strconv.ParseInt s); [apply Elem_Set_allOrNothing|done].
  - apply scalarGuard_allOrNothing. intros s t.
    destruct (strconv.ParseUint s); [apply Elem_Set_allOrNothing|done].
  - apply scalarGuard_allOrNothing. intros s t.
    destruct (strconv.ParseBool s); [apply Elem_Set_allOrNothing|done].
  - apply scalarGuard_allOrNothing. intros s t.
    destruct (ParseFloat F s); [apply Elem_Set_allOrNothing|done].
  - unfold decodeMap. destruct (Value_Type rv) as [t|]; [|done].
    destruct i as [| | | |p|]; try done. destruct (Kind t); try done.
    destruct rv as [|t' v]; [done|].
    destruct t' as [| | | | | | | | | | | | | | | |mt| |]; try done.
    destruct v as [| | | | | | |[w|]| |]; try done.
    destruct (Elem mt) as [elem|]; [|done].
    destruct (mapDecoderFunc F (Kind elem)) as [d|]; [|done].
    destruct mt as [| | | | | | | | | | | | | | |key e| | |]; try done.
    by destruct (decodeEntries d key elem (map_to_list (vals p)) ∅)
      as [vv [[e'|]|]].
  - unfold decodeSlice, decodeSlice_. destruct (Value_Type rv) as [t|]; [|done].
    destruct (TypeOf_Kind i); try done. destruct (Kind t); try done.
    destruct rv as [|t' v]; [done|].
    destruct t' as [| | | | | | | | | | | | | | | |st| |]; try done.
    destruct v as [| | | | | | |[w|]| |]; try done.
    destruct (Elem st) as [elem|]; [|done].
    destruct (sliceDecoderFunc F (decodeStruct L) (Kind elem)) as [d|]; [|done].
    destruct st as [| | | | | | | | | | | | | |e| | | |]; try done.
    by destruct (decodeElems d elem (elements i)) as [vv [[e'|]|]].
Qed.

(** ** The scalar decoders that take no integer *)

(** X13.  decodeString, decodeBool and decodeFloat on a pointer to a
    field of their kind never panic.  decodeString never fails and
    stores the raw value as it is, the empty string included.
    decodeBool and decodeFloat store what strconv makes of the raw
    value, a float32 field receiving the value rounded to float32; when
    strconv rejects the raw value they store nothing and return an
    UnmarshalTypeError with the raw value and the pointer type. *)
Theorem decodeString_decodeBool_decodeFloat_outcomes raw (v0 : value F) :
  let refused t : Value F * outcome :=
    (Addr t v0, Return (Some (TypeError (mkError raw (PtrTo t))))) in
  decodeString (of_string raw) (Addr string_ v0)
  = (Addr string_ (VString raw), Return None) /\
  decodeBool (of_string raw) (Addr bool_ v0)
  = match strconv.ParseBool raw with
    | Some b => (Addr bool_ (VBool b), Return None)
    | None => refused bool_
    end /\
  decodeFloat (of_string raw) (Addr float64 v0)
  = match ParseFloat F raw with
    | Some x => (Addr float64 (VFloat x), Return None)
    | None => refused float64
    end /\
  decodeFloat (of_string raw) (Addr float32 v0)
  = match ParseFloat F raw with
    | Some x => (Addr float32 (VFloat (to_float32 F x)), Return None)
    | None => refused float32
    end.
Proof.
  cbv zeta. split_and!.
  - done.
  - unfold decodeBool, scalarGuard. cbn [Value_Type Addr Kind].
    by destruct (strconv.ParseBool raw).
  - unfold decodeFloat, scalarGuard. cbn [Value_Type Addr Kind].
    by destruct (ParseFloat F raw).
  - unfold decodeFloat, scalarGuard. cbn [Value_Type Addr Kind].
    by destruct (ParseFloat F raw).
Qed.

(** ** Where errors come from *)

Lemma accounted_typeError i t : accounted L (typeError i t).
Proof. intros e [= <-]. left. by eexists. Qed.

Lemma accounted_nil : accounted L (Return None).
Proof. by intros e. Qed.

Lemma accounted_Panic : accounted L Panic.
Proof. by intros e. Qed.

Lemma accounted_Elem_Set rv conv : accounted L (Elem_Set F rv conv).2.
Proof.
  unfold Elem_Set.
  destruct rv as [|t v]; [apply accounted_Panic|].
  destruct t as [| | | | | | | | | | | | | | | |t| |]; try apply accounted_Panic.
  destruct v as [| | | | | | |[w|]| |]; try apply accounted_Panic.
  destruct (conv t); [apply accounted_nil|apply accounted_Panic].
Qed.

Lemma accounted_scalarGuard i rv body :
  (forall s t, accounted L (body s t).2) ->
  accounted L (scalarGuard F i rv body).2.
Proof.
  intros Hb. unfold scalarGuard.
  destruct (Value_Type rv) as [t|]; [|apply accounted_Panic].
  destruct i as [s| | | | |]; try apply accounted_typeError.
  destruct (Kind t); try apply accounted_typeError. apply Hb.
Qed.

Lemma accounted_scalar i rv :
  accounted L (decodeString i rv).2 /\ accounted L (decodeInt i rv).2 /\
  accounted L (decodeUint i rv).2 /\ accounted L (decodeBool i rv).2 /\
  accounted L (decodeFloat i rv).2.
Proof.
  split_and!; apply accounted_scalarGuard; intros s t.
  - apply accounted_Elem_Set.
  - destruct (strconv.ParseInt s);
      [apply accounted_Elem_Set|apply accounted_typeError].
  - destruct (strconv.ParseUint s);
      [apply accounted_Elem_Set|apply accounted_typeError].
  - destruct (strconv.ParseBool s);
      [apply accounted_Elem_Set|apply accounted_typeError].
  - destruct (ParseFloat F s);
      [apply accounted_Elem_Set|apply accounted_typeError].
Qed.

Lemma accounted_decodeElems (d : decoder F) elem vals :
  (forall i rv, accounted L (d i rv).2) ->
  accounted L (decodeElems d elem vals).2.
Proof.
  intros Hd. induction vals as [|val vals IH]; cbn [decodeElems];
    [apply accounted_nil|].
  pose proof (Hd val (Addr elem (Zero F elem))) as H1.
  destruct (d val (Addr elem (Zero F elem))) as [sv [[e|]|]]; try done.
  by destruct (decodeElems d elem vals).
Qed.

Lemma accounted_decodeEntries (d : decoder F) key elem kvs acc :
  (forall i rv, accounted L (d i rv).2) ->
  accounted L (decodeEntries d key elem kvs acc).2.
Proof.
  intros Hd. revert acc.
  induction kvs as [|[k v] kvs IH]; intros acc; cbn [decodeEntries];
    [apply accounted_nil|].
  destruct (match Kind elem with
            | reflect.Slice => Some (of_strings v)
            | _ => of_string <$> head v
            end) as [val|]; [|apply accounted_Panic].
  pose proof (Hd val (Addr elem (Zero F elem))) as H1.
  destruct (d val (Addr elem (Zero F elem))) as [sv [[e|]|]]; try done.
  destruct key; try apply accounted_Panic. apply IH.
Qed.

Lemma accounted_decodeSlice (X : decoder F) i rv :
  (forall i rv, accounted L (X i rv).2) ->
  accounted L (decodeSlice_ X i rv).2.
Proof.
  intros HX. unfold decodeSlice_.
  destruct (Value_Type rv) as [t|]; [|apply accounted_Panic].
  destruct (TypeOf_Kind i); try apply accounted_typeError.
  destruct (Kind t); try apply accounted_typeError.
  destruct rv as [|t' v]; [apply accounted_Panic|].
  destruct t' as [| | | | | | | | | | | | | | | |st| |]; try apply accounted_Panic.
  destruct v as [| | | | | | |[w|]| |]; try apply accounted_Panic.
  destruct (Elem st) as [elem|]; [|apply accounted_Panic].
  destruct (sliceDecoderFunc F X (Kind elem)) as [d|] eqn:Hd;
    [|apply accounted_typeError].
  assert (forall i rv, accounted L (d i rv).2) as Hacc.
  { intros i' rv'. destruct (accounted_scalar i' rv') as (?&?&?&?&?).
    destruct (Kind elem); cbn [sliceDecoderFunc] in Hd; try done;
      injection Hd as <-; auto. }
  destruct st as [| | | | | | | | | | | | | |e| | | |]; try apply accounted_Panic.
  pose proof (accounted_decodeElems d elem (elements i) Hacc) as Hloop.
  by destruct (decodeElems d elem (elements i)) as [vv [[e'|]|]].
Qed.

Lemma accounted_decodeMap i rv : accounted L (decodeMap (F:=F) i rv).2.
Proof.
  unfold decodeMap.
  destruct (Value_Type rv) as [t|]; [|apply accounted_Panic].
  destruct i as [| | | |p|]; try apply accounted_typeError.
  destruct (Kind t); try apply accounted_typeError.
  destruct rv as [|t' v]; [apply accounted_Panic|].
  destruct t' as [| | | | | | | | | | | | | | | |mt| |]; try apply accounted_Panic.
  destruct v as [| | | | | | |[w|]| |]; try apply accounted_Panic.
  destruct (Elem mt) as [elem|]; [|apply accounted_Panic].
  destruct (mapDecoderFunc F (Kind elem)) as [d|] eqn:Hd;
    [|apply accounted_typeError].
  assert (forall i rv, accounted L (d i rv).2) as Hacc.
  { intros i' rv'. destruct (accounted_scalar i' rv') as (?&?&?&?&?).
    destruct (Kind elem); cbn [mapDecoderFunc] in Hd; try done;
      injection Hd as <-; auto. }
  destruct mt as [| | | | | | | | | | | | | | |key e| | |]; try apply accounted_Panic.
  pose proof (accounted_decodeEntries d key elem (map_to_list (vals p)) ∅ Hacc)
    as Hloop.
  by destruct (decodeEntries d key elem (map_to_list (vals p)) ∅)
    as [vv [[e'|]|]].
Qed.

Lemma accounted_section_get s k err :
  section_get L s k = inr err -> accounted L (Return (Some err)).
Proof. intros Hget e [= <-]. right. left. by exists s, k. Qed.

Lemma accounted_decodeProp (d : decoder F) s t ft fv :
  (forall i rv, accounted L (d i rv).2) ->
  accounted L (decodeProp L d s t ft fv).2.
Proof.
  intros Hd. unfold decodeProp.
  destruct (section_get L s (tag_name t)) as [prop|err] eqn:Hget;
    [|by eapply accounted_section_get].
  case_bool_decide; [apply accounted_nil|].
  destruct (property_get L prop ""); [apply accounted_Panic|]. apply Hd.
Qed.

Lemma accounted_decodeField (X : decoder F) s sf fv :
  (forall i rv, accounted L (X i rv).2) ->
  accounted L (decodeField L (decodeSlice_ X) s sf fv).2.
Proof.
  intros HX. unfold decodeField.
  destruct (String.eqb (tag_name (newTag L sf)) "-"); [apply accounted_nil|].
  pose proof accounted_scalar as Hsc.
  destruct (Kind (Type_ sf)); try apply accounted_nil;
    try (apply accounted_decodeProp; intros i rv; apply Hsc).
  - destruct (Kind <$> Elem (Type_ sf)) as [[]|]; try apply accounted_nil;
      (destruct (section_get L s (tag_name (newTag L sf))) as [prop|err] eqn:Hget;
        [|by eapply accounted_section_get]; apply accounted_decodeMap).
  - destruct (Kind <$> Elem (Type_ sf)) as [[]|]; try apply accounted_nil;
      (destruct (section_get L s (tag_name (newTag L sf))) as [prop|err] eqn:Hget;
        [|by eapply accounted_section_get];
        case_bool_decide; [apply accounted_nil|];
        by apply accounted_decodeSlice).
  - destruct (String.eqb (Name sf) "ININame"); [apply Hsc|].
    apply accounted_decodeProp; intros i rv; apply Hsc.
Qed.

Lemma accounted_forFields step fields vs :
  (forall sf v, accounted L (step sf v).2) ->
  accounted L (forFields step fields vs).2.
Proof.
  intros Hs. revert vs.
  induction fields as [|sf fields IH]; intros [|v vs]; cbn [forFields];
    try apply accounted_nil.
  pose proof (Hs sf v) as H1.
  destruct (step sf v) as [v' [[e|]|]]; try done.
  specialize (IH vs). by destruct (forFields step fields vs).
Qed.

Lemma accounted_decodeStruct (X : decoder F) i rv :
  (forall i rv, accounted L (X i rv).2) ->
  accounted L (decodeStruct_ L (decodeSlice_ X) i rv).2.
Proof.
  intros HX. unfold decodeStruct_.
  destruct (Value_Type rv) as [t|]; [|apply accounted_Panic].
  destruct i as [| |s| | |]; try apply accounted_typeError.
  destruct (Kind t); try apply accounted_typeError.
  destruct rv as [|t' v]; [apply accounted_Panic|].
  destruct t' as [| | | | | | | | | | | | | | | |st| |]; try apply accounted_Panic.
  destruct st as [| | | | | | | | | | | | | | | | |fields|];
    try apply accounted_Panic.
  destruct v as [| | | | | | |[w|]| |]; try apply accounted_Panic.
  destruct w as [| | | | | | | |vs|]; try apply accounted_Panic.
  pose proof (accounted_forFields (decodeField L (decodeSlice_ X) s) fields vs
                (fun sf v => accounted_decodeField X s sf v HX)) as Hloop.
  by destruct (forFields _ fields vs).
Qed.

Lemma accounted_decodeStruct' i rv : accounted L (decodeStruct (F:=F) L i rv).2.
Proof. apply accounted_decodeStruct. intros ? ?. apply accounted_Panic. Qed.

Lemma accounted_decodeSection tree sf fv :
  accounted L (decodeSection (F:=F) L tree sf fv).2.
Proof.
  unfold decodeSection.
  destruct (String.eqb (tag_name (newTag L sf)) "-"); [apply accounted_nil|].
  destruct (Kind (Type_ sf)); try apply accounted_nil.
  - destruct (Kind <$> Elem (Type_ sf)) as [[]|]; try apply accounted_nil.
    destruct (parseTree_get L tree (tag_name (newTag L sf))) as [val|err] eqn:Hget.
    + case_bool_decide; [apply accounted_nil|].
      apply accounted_decodeSlice, accounted_decodeStruct'.
    + intros e [= <-]. right. right. by exists tree, (tag_name (newTag L sf)).
  - destruct (parseTree_get L tree (tag_name (newTag L sf)))
      as [[|val rest]|err] eqn:Hget.
    + apply accounted_nil.
    + apply accounted_decodeStruct'.
    + intros e [= <-]. right. right. by exists tree, (tag_name (newTag L sf)).
Qed.

Lemma accounted_decode tree rv : accounted L (decode (F:=F) L tree rv).2.
Proof.
  unfold decode.
  destruct (Value_Type rv) as [t|]; [|apply accounted_Panic].
  destruct (Kind t); try apply accounted_typeError.
  destruct rv as [|t' v]; [apply accounted_Panic|].
  destruct t' as [| | | | | | | | | | | | | | | |st| |];
    try apply accounted_Panic.
  destruct v as [| | | | | | |[w|]| |]; try apply accounted_Panic.
  destruct (Kind st); try apply accounted_typeError.
  pose proof (accounted_decodeStruct' (of_section (global tree)) (Addr st w))
    as Hglobal.
  destruct (decodeStruct L (of_section (global tree)) (Addr st w))
    as [rv1 [[e|]|]]; try done.
  destruct st as [| | | | | | | | | | | | | | | | |fields|];
    try apply accounted_Panic.
  destruct (pointee w rv1) as [| | | | | | | |vs|]; try apply accounted_Panic.
  pose proof (accounted_forFields (decodeSection L tree) fields vs
                (accounted_decodeSection tree)) as Hloop.
  by destruct (forFields (decodeSection L tree) fields vs).
Qed.

(** X14.  Where errors come from.  Every non-nil error that decode,
    decodeStruct, decodeSlice or decodeMap returns is either a
    [*UnmarshalTypeError] or the very error that a call of [s.get] or
    [tree.get] returned: the decoder makes no other error of its own
    and never wraps or replaces the error of a lookup. *)
Theorem errors_are_accounted_for tree i rv :
  accounted L (decode L tree rv).2 /\
  accounted L (decodeStruct L i rv).2 /\
  accounted L (decodeSlice L i rv).2 /\
  accounted L (decodeMap i rv).2.
Proof.
  split_and!.
  - apply accounted_decode.
  - apply accounted_decodeStruct'.
  - apply accounted_decodeSlice, accounted_decodeStruct'.
  - apply accounted_decodeMap.
Qed.

(** ** When decodeStruct panics *)

Lemma mapDecoderFunc_scalar t (d : decoder F) :
  mapDecoderFunc F (Kind t) = Some d -> scalar t = true.
Proof. by destruct t as [| | | | | | | | | | | | | | | | | |[]]. Qed.

Lemma sliceDecoderFunc_scalar_or_struct (X : decoder F) t d :
  sliceDecoderFunc F X (Kind t) = Some d ->
  scalar t = true \/ Kind t = reflect.Struct.
Proof.
  destruct t as [| | | | | | | | | | | | | | | | | |[]]; try done; auto.
Qed.

Lemma decodeEntries_Panic (d : decoder F) key elem kvs acc :
  scalar elem = true ->
  (forall raw v0, d (of_string raw) (Addr elem v0) = scalarResult elem raw v0) ->
  (decodeEntries d key elem kvs acc).2 = Panic ->
  key <> string_ \/ exists k, (k, []) ∈ kvs.
Proof.
  intros Hsc Hd. revert acc.
  induction kvs as [|[k raws] kvs IH]; intros acc; cbn [decodeEntries]; [done|].
  assert (match Kind elem with
          | reflect.Slice => Some (of_strings raws)
          | _ => of_string <$> head raws
          end = of_string <$> head raws) as -> by (by destruct elem).
  destruct raws as [|raw raws]; cbn [head fmap option_fmap option_map].
  { intros _. right. exists k. by left. }
  rewrite Hd. unfold scalarResult.
  destruct (convert elem raw) as [v|]; [|done].
  destruct key; try (by left). intros Hp.
  destruct (IH _ Hp) as [?|[k' Hk']]; [by left|].
  right. exists k'. by right.
Qed.

Lemma decodeMap_Panic p key elem fv :
  (decodeMap (of_property p) (Addr (MapOf key elem) fv)).2 = Panic ->
  vals p <> ∅ /\ scalar elem = true /\
  (key <> string_ \/ exists k, vals p !! k = Some []).
Proof.
  unfold decodeMap. cbn [Value_Type Addr Kind Elem].
  destruct (mapDecoderFunc F (Kind elem)) as [d|] eqn:Hd; [|done].
  pose proof (mapDecoderFunc_scalar _ _ Hd) as Hsc.
  destruct (sliceDecoderFunc_scalar (fun _ rv => (rv, Panic)) elem Hsc)
    as (d' & _ & Hd' & Hres).
  rewrite Hd in Hd'. injection Hd' as <-.
  pose proof (decodeEntries_Panic d key elem (map_to_list (vals p)) ∅ Hsc Hres)
    as Hloop.
  destruct (decodeEntries d key elem (map_to_list (vals p)) ∅)
    as [vv r] eqn:Hrun.
  destruct r as [[e|]|]; try done. intros _.
  split; [|split; [done|]].
  - intros Hempty. rewrite Hempty, map_to_list_empty in Hrun. done.
  - destruct (Hloop eq_refl) as [?|[k Hk]]; [by left|].
    right. exists k. by apply elem_of_map_to_list in Hk.
Qed.

Lemma decodeSlice_no_Panic (X : decoder F) raws elem fv :
  Kind elem <> reflect.Struct ->
  (decodeSlice_ X (of_strings raws) (Addr (SliceOf elem) fv)).2 <> Panic.
Proof.
  intros Hk.
  destruct (sliceDecoderFunc F X (Kind elem)) as [d|] eqn:Hd.
  - destruct (sliceDecoderFunc_scalar_or_struct X elem d Hd) as [Hsc|?]; [|done].
    pose proof (decodeSlice_scalar X elem raws fv Hsc) as Hs.
    destruct (mapM (convert elem) raws).
    + by rewrite Hs.
    + destruct Hs as (raw & _ & ->). done.
  - unfold decodeSlice_. cbn [Value_Type Addr Kind TypeOf_Kind Elem].
    by rewrite Hd.
Qed.

Lemma bindScalar_Panic ft prop fv :
  (bindScalar L ft prop fv).2 = Panic ->
  vals prop <> ∅ /\ property_get L prop "" = [].
Proof.
  unfold bindScalar. case_bool_decide as Hsz; [done|]. intros Hp. split.
  - intros He. by rewrite He, map_size_empty in Hsz.
  - destruct (property_get L prop ""); [done|]. by destruct (convert _ _).
Qed.

Lemma decodeField_Panic s sf fv :
  (decodeField L (decodeSlice L) s sf fv).2 = Panic ->
  skipped L sf = false /\
  exists prop, section_get L s (fieldName L sf) = inl prop /\
               panicCause L sf prop.
Proof.
  destruct (skipped L sf) eqn:Hskip.
  { by rewrite decodeField_skipped. }
  intros Hp. split; [done|].
  destruct (scalar (Type_ sf)) eqn:Hsc.
  - assert (Type_ sf = string_ -> Name sf <> "ININame") as Hname.
    { intros Ht Hn. by rewrite decodeField_ININame in Hp. }
    revert Hp. rewrite decodeField_scalar; [|done..].
    destruct (section_get L s (fieldName L sf)) as [prop|err]; [|done].
    intros Hp. exists prop. split; [done|].
    apply bindScalar_Panic in Hp as [Hne Hraws].
    split; [done|]. by left.
  - revert Hp. unfold decodeField. unfold skipped in Hskip.
    fold (fieldName L sf). rewrite Hskip.
    destruct (Type_ sf) as [| | | | | | | | | | | | | |elem|key elem| | |[]] eqn:Ht;
      try done; cbn [Kind Elem fmap option_fmap option_map].
    + destruct (Kind elem) eqn:Hk; try done;
        (destruct (section_get L s (fieldName L sf)) as [prop|err]; [|done];
         case_bool_decide; [done|]; unfold through; cbn [snd];
         intros Hp; exfalso; revert Hp;
         apply decodeSlice_no_Panic; by rewrite Hk).
    + destruct (Kind elem) eqn:Hk; try done;
        (destruct (section_get L s (fieldName L sf)) as [prop|err]; [|done];
         unfold through; cbn [snd]; intros Hp; exists prop; split; [done|];
         apply decodeMap_Panic in Hp as (Hne & Hsce & Hwhy);
         split; [done|]; right; by exists key, elem).
Qed.

Lemma decodeStruct_Panic s fields vs :
  (decodeStruct L (of_section s) (Addr (StructOf fields) (VStruct vs))).2
  = Panic ->
  exists j sf prop,
    fields !! j = Some sf /\ skipped L sf = false /\
    section_get L s (fieldName L sf) = inl prop /\ panicCause L sf prop.
Proof.
  rewrite decodeStruct_fields. cbn [snd].
  destruct (forFields (decodeField L (decodeSlice L) s) fields vs)
    as [vs' r] eqn:Hloop. cbn [snd]. intros ->.
  destruct (forFields_stop _ _ _ _ _ Hloop) as (j & sf & v & Hsf & _ & Hr & _);
    [done|].
  apply decodeField_Panic in Hr as (Hskip & prop & Hget & Hwhy).
  by exists j, sf, prop.
Qed.


Lemma decodeElems_stop (d : decoder F) elem vals r :
  (decodeElems d elem vals).2 = r -> r <> Return None ->
  exists val, val ∈ vals /\ (d val (Addr elem (Zero F elem))).2 = r.
Proof.
  induction vals as [|val vals IH]; cbn [decodeElems].
  - by intros <-.
  - destruct (d val (Addr elem (Zero F elem))) as [sv r0] eqn:Hd.
    destruct r0 as [[e|]|].
    + intros <- _. exists val. split; [by left|]. by rewrite Hd.
    + destruct (decodeElems d elem vals) as [vs r']. cbn [snd] in *.
      intros Hr Hne. destruct (IH Hr Hne) as (val' & Hin & Hd').
      exists val'. split; [by right|done].
    + intros <- _. exists val. split; [by left|]. by rewrite Hd.
Qed.

Lemma decodeSection_Panic tree sf fv :
  (Kind (Type_ sf) = reflect.Struct -> exists ws, fv = VStruct ws) ->
  (decodeSection L tree sf fv).2 = Panic ->
  exists group s sf' prop,
    parseTree_get L tree (fieldName L sf) = inl group /\ s ∈ group /\
    skipped L sf' = false /\
    section_get L s (fieldName L sf') = inl prop /\ panicCause L sf' prop.
Proof.
  intros Hwf. unfold decodeSection. fold (fieldName L sf).
  destruct (String.eqb (fieldName L sf) "-"); [done|].
  destruct (Type_ sf) as [| | | | | | | | | | | | | |elem| | |fs|[]] eqn:Ht;
    try done; cbn [Kind Elem fmap option_fmap option_map].
  - destruct elem as [| | | | | | | | | | | | | | | | |fs|[]]; try done.
    cbn [Kind].
    destruct (parseTree_get L tree (fieldName L sf)) as [group|err]; [|done].
    case_bool_decide; [done|]. unfold through. cbn [snd].
    unfold decodeSlice, decodeSlice_.
    cbn [Value_Type Addr Kind TypeOf_Kind Elem sliceDecoderFunc elements].
    destruct (decodeElems (decodeStruct L) (StructOf fs) (of_section <$> group))
      as [vv r] eqn:Hloop.
    destruct r as [[e|]|]; try done. cbn [snd]. intros _.
    destruct (decodeElems_stop (decodeStruct L) (StructOf fs)
                (of_section <$> group) Panic) as (val & Hin & Hd);
      [by rewrite Hloop|done|].
    apply list_elem_of_fmap in Hin as (s & -> & Hin).
    apply decodeStruct_Panic in Hd as (j & sf' & prop & _ & Hskip & Hget & Hwhy).
    by exists group, s, sf', prop.
  - destruct (Hwf eq_refl) as [ws ->].
    destruct (parseTree_get L tree (fieldName L sf)) as [[|s rest]|err];
      try done.
    unfold through. cbn [snd]. intros Hd.
    apply decodeStruct_Panic in Hd as (j & sf' & prop & _ & Hskip & Hget & Hwhy).
    exists (s :: rest), s, sf', prop. split_and!; try done. by left.
Qed.


(** ** The order in which decodeMap visits the map-keys *)

Lemma decodeEntries_cons (d : decoder F) key elem k raws kvs acc :
  decodeEntries d key elem ((k, raws) :: kvs) acc
  = match entryValue d elem raws with
    | Some x =>
        match key with
        | string_ => decodeEntries d key elem kvs (<[k := x]> acc)
        | _ => (acc, Panic)
        end
    | None => (acc, (decodeEntries d key elem [(k, raws)] acc).2)
    end.
Proof.
  cbn [decodeEntries]. unfold entryValue.
  destruct (match Kind elem with
            | reflect.Slice => Some (of_strings raws)
            | _ => of_string <$> head raws
            end) as [val|]; [|done].
  by destruct (d val (Addr elem (Zero F elem))) as [mv' [[e|]|]].
Qed.

Lemma decodeEntries_fails (d : decoder F) key elem k raws acc :
  entryValue d elem raws = None ->
  (decodeEntries d key elem [(k, raws)] acc).2 <> Return None.
Proof.
  cbn [decodeEntries]. unfold entryValue.
  destruct (match Kind elem with
            | reflect.Slice => Some (of_strings raws)
            | _ => of_string <$> head raws
            end) as [val|]; [|done].
  by destruct (d val (Addr elem (Zero F elem))) as [mv' [[e|]|]].
Qed.

(** The loop over map-keys ends well exactly when every turn does (and
    the keys of the map are strings, if there is a turn at all), and
    then each map-key is bound to what its turn stored. *)
Lemma decodeEntries_lookup (d : decoder F) elem kvs acc m :
  NoDup kvs.*1 ->
  decodeEntries d string_ elem kvs acc = (m, Return None) ->
  (forall k raws, (k, raws) ∈ kvs -> m !! k = entryValue d elem raws /\ is_Some (m !! k)) /\
  (forall k, k ∉ kvs.*1 -> m !! k = acc !! k).
Proof.
  revert acc. induction kvs as [|[k0 raws0] kvs IH]; intros acc Hnd.
  - intros [= <-]. split; [|done]. intros k raws Hin. by apply elem_of_nil in Hin.
  - rewrite fmap_cons in Hnd. apply NoDup_cons in Hnd as [Hk0 Hnd].
    rewrite decodeEntries_cons.
    destruct (entryValue d elem raws0) as [x|] eqn:Hx.
    + intros Hrest. destruct (IH _ Hnd Hrest) as [Hin Hout]. split.
      * intros k raws [[= -> ->]|Hk]%elem_of_cons; [|by apply Hin].
        rewrite (Hout k0 Hk0), lookup_insert_eq, Hx. by split.
      * intros k Hk. rewrite fmap_cons in Hk.
        apply not_elem_of_cons in Hk as [Hne Hk].
        rewrite (Hout k Hk). by rewrite lookup_insert_ne.
    + intros Hr. apply (f_equal snd) in Hr.
      destruct (decodeEntries_fails d string_ elem k0 raws0 acc Hx). exact Hr.
Qed.

Lemma decodeEntries_success (d : decoder F) elem kvs acc :
  (forall k raws, (k, raws) ∈ kvs -> is_Some (entryValue d elem raws)) ->
  (decodeEntries d string_ elem kvs acc).2 = Return None.
Proof.
  revert acc. induction kvs as [|[k0 raws0] kvs IH]; intros acc Hall; [done|].
  rewrite decodeEntries_cons.
  destruct (Hall k0 raws0) as [x ->]; [by left|].
  apply IH. intros k raws Hk. apply (Hall k). by right.
Qed.

Lemma decodeEntries_not_string (d : decoder F) key elem kvs acc :
  key <> string_ -> kvs <> [] ->
  (decodeEntries d key elem kvs acc).2 <> Return None.
Proof.
  intros Hkey Hne. destruct kvs as [|[k raws] kvs]; [done|].
  rewrite decodeEntries_cons.
  destruct (entryValue d elem raws) eqn:Hx.
  - by destruct key.
  - cbn [snd]. by apply decodeEntries_fails.
Qed.

Lemma decodeEntries_permutation (d : decoder F) key elem kvs kvs' acc m :
  kvs ≡ₚ kvs' -> NoDup kvs.*1 ->
  decodeEntries d key elem kvs acc = (m, Return None) ->
  decodeEntries d key elem kvs' acc = (m, Return None).
Proof.
  intros Hperm Hnd Hrun.
  destruct kvs as [|kv kvs0] eqn:Hkvs.
  { apply Permutation_nil_l in Hperm. by subst kvs'. }
  rewrite <- Hkvs in *.
  assert (key = string_) as ->.
  { pose proof (decodeEntries_not_string d key elem kvs acc) as Hns.
    rewrite Hrun in Hns. cbn [snd] in Hns.
    destruct key; try done; destruct Hns; by rewrite ?Hkvs. }
  destruct (decodeEntries_lookup d elem kvs acc m Hnd Hrun) as [Hin Hout].
  assert (NoDup kvs'.*1) as Hnd' by (by rewrite <- Hperm).
  destruct (decodeEntries d string_ elem kvs' acc) as [m' r'] eqn:Hrun'.
  assert (r' = Return None) as ->.
  { change r' with (m', r').2. rewrite <- Hrun'. apply decodeEntries_success.
    intros k raws Hk. rewrite <- Hperm in Hk.
    destruct (Hin k raws Hk) as [<- ?]. done. }
  destruct (decodeEntries_lookup d elem kvs' acc m' Hnd' Hrun') as [Hin' Hout'].
  f_equal. apply map_eq. intros k.
  destruct (decide (k ∈ kvs.*1)) as [Hk|Hk].
  - apply list_elem_of_fmap in Hk as [[k' raws] [-> Hk]]. cbn [fst].
    destruct (Hin k' raws Hk) as [-> _].
    rewrite Hperm in Hk. by destruct (Hin' k' raws Hk) as [-> _].
  - rewrite (Hout k Hk). rewrite Hperm in Hk. by rewrite (Hout' k Hk).
Qed.

(** X16.  The order of the map-keys does not matter.  decodeMap ranges
    over a Go map, whose order is not fixed.  For any two orders of the
    same entries, the loop of decodeMap ends without error in one
    exactly when it does in the other, and then both build the same
    map; only which error or panic a failing call ends with can depend
    on the order. *)
Theorem decodeMap_order_is_irrelevant (d : decoder F) key elem kvs kvs' acc :
  kvs ≡ₚ kvs' -> NoDup kvs.*1 ->
  ((decodeEntries d key elem kvs acc).2 = Return None <->
   (decodeEntries d key elem kvs' acc).2 = Return None) /\
  ((decodeEntries d key elem kvs acc).2 = Return None ->
   decodeEntries d key elem kvs' acc = decodeEntries d key elem kvs acc).
Proof.
  intros Hperm Hnd.
  assert (NoDup kvs'.*1) as Hnd' by (by rewrite <- Hperm).
  split; [split|].
  - destruct (decodeEntries d key elem kvs acc) as [m r] eqn:Hrun.
    cbn [snd]. intros ->.
    by rewrite (decodeEntries_permutation d key elem kvs kvs' acc m).
  - destruct (decodeEntries d key elem kvs' acc) as [m r] eqn:Hrun.
    cbn [snd]. intros ->.
    by rewrite (decodeEntries_permutation d key elem kvs' kvs acc m).
  - destruct (decodeEntries d key elem kvs acc) as [m r] eqn:Hrun.
    cbn [snd]. intros ->.
    by rewrite (decodeEntries_permutation d key elem kvs kvs' acc m).
Qed.

(** ** The omitempty option *)

Lemma decodeElems_ext (d d' : decoder F) elem vals :
  (forall i rv, d i rv = d' i rv) ->
  decodeElems d elem vals = decodeElems d' elem vals.
Proof.
  intros Hext. induction vals as [|val vals IH]; cbn [decodeElems]; [done|].
  by rewrite Hext, IH.
Qed.

Lemma decodeSlice_ext (X Y : decoder F) i rv :
  (forall i rv, X i rv = Y i rv) -> decodeSlice_ X i rv = decodeSlice_ Y i rv.
Proof.
  intros Hext. unfold decodeSlice_.
  destruct (Value_Type rv) as [t|]; [|done].
  destruct (TypeOf_Kind i); try done. destruct (Kind t); try done.
  destruct rv as [|t' pv]; [done|].
  destruct t' as [| | | | | | | | | | | | | | | |st| |]; try done.
  destruct pv as [| | | | | | |[w|]| |]; try done.
  destruct (Elem st) as [elem|]; [|done].
  destruct (Kind elem) eqn:Hk; cbn [sliceDecoderFunc]; try done.
  destruct st; try done. by rewrite (decodeElems_ext X Y elem _ Hext).
Qed.

Section Omitempty.
Variable L' : Lookups.
Hypothesis same_sections :
  forall t n, parseTree_get L' t n = parseTree_get L t n.
Hypothesis same_properties :
  forall s k, section_get L' s k = section_get L s k.
Hypothesis same_values :
  forall p k, property_get L' p k = property_get L p k.
Hypothesis same_names :
  forall sf, tag_name (newTag L' sf) = tag_name (newTag L sf).

Lemma decodeField_lookups (d : decoder F) s sf fv :
  decodeField L' d s sf fv = decodeField L d s sf fv.
Proof.
  unfold decodeField, decodeProp.
  rewrite same_names, !same_properties.
  destruct (section_get L s (tag_name (newTag L sf))) as [prop|err];
    by rewrite ?same_values.
Qed.

Lemma decodeStruct_lookups i rv : decodeStruct L' i rv = decodeStruct (F:=F) L i rv.
Proof.
  unfold decodeStruct, decodeStruct_.
  destruct (Value_Type rv) as [t|]; [|done].
  destruct i as [| |s| | |]; try done. destruct (Kind t); try done.
  destruct rv as [|t' pv]; [done|].
  destruct t' as [| | | | | | | | | | | | | | | |st| |]; try done.
  destruct st as [| | | | | | | | | | | | | | | | |fields|]; try done.
  destruct pv as [| | | | | | |[w|]| |]; try done.
  destruct w as [| | | | | | | |vs|]; try done.
  by rewrite (forFields_ext _ _ fields vs (decodeField_lookups _ s)).
Qed.

Lemma decodeSection_lookups tree sf fv :
  decodeSection L' tree sf fv = decodeSection (F:=F) L tree sf fv.
Proof.
  unfold decodeSection, decodeSlice.
  rewrite same_names, !same_sections.
  destruct (String.eqb _ "-"); [done|].
  destruct (Kind (Type_ sf)); try done.
  - destruct (Kind <$> Elem (Type_ sf)) as [[]|]; try done.
    destruct (parseTree_get L tree _) as [val|err]; [|done].
    case_bool_decide; [done|].
    by rewrite (decodeSlice_ext _ _ _ _ decodeStruct_lookups).
  - destruct (parseTree_get L tree _) as [[|val rest]|err]; try done.
    by rewrite decodeStruct_lookups.
Qed.

Lemma decode_lookups tree rv : decode L' tree rv = decode (F:=F) L tree rv.
Proof.
  unfold decode.
  destruct (Value_Type rv) as [t|]; [|done]. destruct (Kind t); try done.
  destruct rv as [|t' pv]; [done|].
  destruct t' as [| | | | | | | | | | | | | | | |st| |]; try done.
  destruct pv as [| | | | | | |[w|]| |]; try done.
  destruct (Kind st); try done. rewrite decodeStruct_lookups.
  destruct (decodeStruct L (of_section (global tree)) (Addr st w))
    as [rv1 [[e|]|]]; try done.
  destruct st; try done. destruct (pointee w rv1); try done.
  by rewrite (forFields_ext _ _ _ _ (decodeSection_lookups tree)).
Qed.

End Omitempty.

(** X17.  The omitempty option has no effect on decoding.  decode and
    decodeStruct read the name of the tag that [newTag] returns and
    nothing else of it: with two implementations of the lookups that
    return the same sections, properties, values and tag names, and so
    can differ only in the omitempty option they report, decode and
    decodeStruct store the same and end the same. *)
Theorem omitempty_is_ignored (L' : Lookups) tree i rv :
  (forall t n, parseTree_get L' t n = parseTree_get L t n) ->
  (forall s k, section_get L' s k = section_get L s k) ->
  (forall p k, property_get L' p k = property_get L p k) ->
  (forall sf, tag_name (newTag L' sf) = tag_name (newTag L sf)) ->
  decode L' tree rv = decode (F:=F) L tree rv /\
  decodeStruct L' i rv = decodeStruct (F:=F) L i rv.
Proof.
  intros H1 H2 H3 H4. split.
  - by apply decode_lookups.
  - by apply decodeStruct_lookups.
Qed.

(** ** Unmarshal *)


(** ** Fields are bound independently *)

Lemma forFields_nil_iff step fields vs :
  (forFields step fields vs).2 = Return None <->
  forall j sf v, fields !! j = Some sf -> vs !! j = Some v ->
                 (step sf v).2 = Return None.
Proof.
  split; [|apply forFields_total].
  intros Hnil j sf v Hsf Hv.
  destruct (forFields step fields vs) as [vs' r] eqn:Hloop.
  cbn [snd] in Hnil. subst r.
  by destruct (forFields_ok _ _ _ _ j sf v Hloop Hsf Hv).
Qed.

(** X20.  Fields are bound independently, and no failure is swallowed.
    decodeStruct returns nil exactly when the step of every field, run
    on the value the field had before the call, returns nil; decode
    returns nil exactly when for every field both the step over the
    global properties and the step over the sections do.  No step sees
    what another field received. *)
Theorem decode_succeeds_iff_every_field_does tree s fields vs :
  let each (step : StructField type -> value F -> value F * outcome) :=
    forall j sf fv, fields !! j = Some sf -> vs !! j = Some fv ->
                    (step sf fv).2 = Return None in
  ((decodeStruct L (of_section s) (Addr (StructOf fields) (VStruct vs))).2
   = Return None <-> each (decodeField L (decodeSlice L) s)) /\
  ((decode L tree (Addr (StructOf fields) (VStruct vs))).2 = Return None <->
   each (decodeField L (decodeSlice L) (global tree)) /\
   each (decodeSection L tree)).
Proof.
  intros each. subst each. cbv beta. split.
  - rewrite decodeStruct_fields. cbn [snd]. apply forFields_nil_iff.
  - rewrite decode_fields.
    pose proof (forFields_nil_iff (decodeField L (decodeSlice L) (global tree))
                  fields vs) as Hglobal.
    pose proof (forFields_length (decodeField L (decodeSlice L) (global tree))
                  fields vs) as Hlen.
    destruct (forFields (decodeField L (decodeSlice L) (global tree)) fields vs)
      as [vs1 r1] eqn:Hpass1. cbn [fst snd] in Hglobal, Hlen.
    assert (r1 = Return None ->
            forall j sf fv v1, fields !! j = Some sf -> vs !! j = Some fv ->
              vs1 !! j = Some v1 ->
              (decodeSection L tree sf v1).2 = (decodeSection L tree sf fv).2)
      as Hsame.
    { intros -> j sf fv v1 Hsf Hv Hv1.
      destruct (forFields_ok _ _ _ _ j sf fv Hpass1 Hsf Hv) as [Hj _].
      rewrite Hv1 in Hj. injection Hj as ->.
      destruct (decode_passes_disjoint tree sf) as [Hi|Hi].
      - by rewrite Hi.
      - by rewrite !Hi. }
    destruct r1 as [[e|]|].
    + split; [done|]. intros [HG _]. by apply Hglobal in HG.
    + pose proof (forFields_nil_iff (decodeSection L tree) fields vs1) as Hsec.
      destruct (forFields (decodeSection L tree) fields vs1) as [vs2 r2].
      cbn [snd] in *. rewrite Hsec. split.
      * intros HS. split; [by apply Hglobal|].
        intros j sf fv Hsf Hv.
        destruct (lookup_lt_is_Some_2 vs1 j) as [v1 Hv1].
        { rewrite Hlen. by eapply lookup_lt_Some. }
        rewrite <- (Hsame eq_refl j sf fv v1 Hsf Hv Hv1). by eapply HS.
      * intros [_ HS] j sf v1 Hsf Hv1.
        destruct (lookup_lt_is_Some_2 vs j) as [fv Hv].
        { rewrite <- Hlen. by eapply lookup_lt_Some. }
        rewrite (Hsame eq_refl j sf fv v1 Hsf Hv Hv1). by eapply HS.
    + split; [done|]. intros [HG _]. by apply Hglobal in HG.
Qed.
End Facts.

(** * The round trip through the encoder of the specification *)

(** ** Integers and booleans as text *)

Lemma append_assoc (s t u : string) : (s +:+ t) +:+ u = s +:+ (t +:+ u).
Proof.
  induction s as [|c s IH]; [done|].
  change (String.String c ((s +:+ t) +:+ u) = String.String c (s +:+ t +:+ u)).
  by f_equal.
Qed.

Lemma digits_app a s t :
  strconv.digits a (s +:+ t) = strconv.digits a s ≫= fun a' => strconv.digits a' t.
Proof.
  revert a. induction s as [|c s IH]; intros a; [done|].
  change (String.String c s +:+ t) with (String.String c (s +:+ t)).
  cbn [strconv.digits]. destruct (strconv.isDigit c); [apply IH|done].
Qed.

Lemma formatBits_acc fuel n acc :
  formatBits fuel n acc = formatBits fuel n "" +:+ acc.
Proof.
  revert n acc. induction fuel as [|fuel IH]; intros n acc; simpl; [done|].
  destruct (n <? 10); [done|].
  rewrite IH, (IH _ (String.String _ "")), append_assoc. done.
Qed.

Lemma digit_char d :
  0 <= d < 10 ->
  let c := Ascii.ascii_of_nat (Z.to_nat (48 + d)) in
  strconv.isDigit c = true /\ strconv.digit c = d.
Proof.
  intros Hd.
  assert (d = 0 \/ d = 1 \/ d = 2 \/ d = 3 \/ d = 4 \/ d = 5 \/ d = 6 \/
          d = 7 \/ d = 8 \/ d = 9) as Hcases by lia.
  by repeat (destruct Hcases as [->|Hcases]); subst.
Qed.

Lemma digits_formatBits fuel n a :
  0 <= n < 10 ^ Z.of_nat fuel ->
  exists k, 0 <= k /\
    strconv.digits a (formatBits fuel n "") = Some (a * 10 ^ k + n).
Proof.
  revert n a. induction fuel as [|fuel IH]; intros n a Hn.
  - exists 0. simpl in *. split; [done|]. f_equal. lia.
  - cbn [formatBits].
    destruct (digit_char (n mod 10)) as [Hdig Hval];
      [by apply Z.mod_pos_bound|].
    destruct (n <? 10) eqn:Hlt.
    + apply Z.ltb_lt in Hlt. exists 1. split; [done|].
      cbn [strconv.digits]. rewrite Hdig, Hval.
      rewrite Z.mod_small by lia. f_equal. lia.
    + apply Z.ltb_ge in Hlt.
      destruct (IH (n / 10) a) as (k & Hk & Hd).
      { split; [apply Z.div_pos; lia|].
        apply Z.div_lt_upper_bound; [lia|].
        rewrite Nat2Z.inj_succ, Z.pow_succ_r in Hn by lia. lia. }
      exists (k + 1). split; [lia|].
      rewrite formatBits_acc, digits_app, Hd. cbn [mbind option_bind strconv.digits].
      rewrite Hdig, Hval. f_equal.
      rewrite Z.pow_add_r by lia.
      pose proof (Z.div_mod n 10). lia.
Qed.

Lemma formatBits_nonempty fuel n acc : formatBits (S fuel) n acc <> "".
Proof.
  cbn [formatBits]. destruct (n <? 10); [done|].
  rewrite formatBits_acc. by destruct (formatBits fuel (n / 10) "").
Qed.

Lemma FormatUint_digits n :
  0 <= n < 2 ^ 64 ->
  exists c s, FormatUint n = String.String c s /\
    strconv.isDigit c = true /\ strconv.digits 0 (FormatUint n) = Some n.
Proof.
  intros Hn. destruct (digits_formatBits 20 n 0) as (k & _ & Hd); [lia|].
  fold (FormatUint n) in Hd. rewrite Z.mul_0_l, Z.add_0_l in Hd.
  destruct (FormatUint n) as [|c s] eqn:Hs.
  - by destruct (formatBits_nonempty 19 n "").
  - exists c, s. split; [done|]. split; [|done].
    cbn [strconv.digits] in Hd. by destruct (strconv.isDigit c).
Qed.

Lemma ParseUint_FormatUint n :
  0 <= n < 2 ^ 64 -> strconv.ParseUint (FormatUint n) = Some n.
Proof.
  intros Hn. destruct (FormatUint_digits n Hn) as (c & s & Hs & _ & Hd).
  unfold strconv.ParseUint. rewrite Hd, Hs.
  by rewrite (proj2 (Z.ltb_lt n (2 ^ 64))) by lia.
Qed.

Lemma ParseInt_FormatInt n :
  - 2 ^ 63 <= n < 2 ^ 63 -> strconv.ParseInt (FormatInt n) = Some n.
Proof.
  intros Hn. unfold FormatInt. destruct (n <? 0) eqn:Hneg.
  - apply Z.ltb_lt in Hneg.
    destruct (FormatUint_digits (- n)) as (c & s & Hs & _ & Hd); [lia|].
    unfold strconv.ParseInt. cbn [Ascii.eqb Bool.eqb orb negb andb].
    rewrite Hd, Hs.
    rewrite (proj2 (Z.ltb_ge (2 ^ 63) (- n))) by lia. f_equal. lia.
  - apply Z.ltb_ge in Hneg.
    destruct (FormatUint_digits n) as (c & s & Hs & Hc & Hd); [lia|].
    rewrite Hs in *. unfold strconv.ParseInt.
    assert (Ascii.eqb c "-" = false /\ Ascii.eqb c "+" = false) as [-> ->].
    { split; apply Ascii.eqb_neq; intros ->; done. }
    cbn [orb negb andb]. rewrite Hd.
    by rewrite (proj2 (Z.leb_gt (2 ^ 63) n)) by lia.
Qed.

Lemma ParseBool_FormatBool b : strconv.ParseBool (FormatBool b) = Some b.
Proof. by destruct b. Qed.

Lemma wrap_signed_inRange t n :
  signedInt t = true -> inRange t n = true ->
  wrap_signed (Bits t) n = n /\ - 2 ^ 63 <= n < 2 ^ 63.
Proof.
  intros Hk Hr. unfold wrap_signed.
  destruct t; try done; cbn [inRange Bits] in *;
    apply andb_true_iff in Hr as [Hlo Hhi];
    apply Z.leb_le in Hlo; apply Z.ltb_lt in Hhi;
    (split; [rewrite Z.mod_small; lia|lia]).
Qed.

Lemma wrap_unsigned_inRange t n :
  unsignedInt t = true -> inRange t n = true ->
  wrap_unsigned (Bits t) n = n /\ 0 <= n < 2 ^ 64.
Proof.
  intros Hk Hr. unfold wrap_unsigned.
  destruct t; try done; cbn [inRange Bits] in *;
    apply andb_true_iff in Hr as [Hlo Hhi];
    apply Z.leb_le in Hlo; apply Z.ltb_lt in Hhi;
    (split; [rewrite Z.mod_small; lia|lia]).
Qed.

Section RoundTrip.
Variable F : Floats.
Variable P : FloatFormat F.
(** Parsing the text of a float gives the float back. *)
Hypothesis parse_format : forall f, ParseFloat F (FormatFloat P f) = Some f.
Implicit Types (fields inner : list (StructField type)) (vs ws : list (value F)).
Implicit Types (sf : StructField type) (v : value F).

Local Abbreviation name_of := (fieldName specLookups).

(** ** Scalars *)

Lemma convert_format t v :
  scalar t = true -> scalarValue t v -> convert t (formatScalar P v) = Some v.
Proof.
  intros Hsc Hv.
  destruct t; try done; destruct v; try done; cbn [formatScalar convert];
    cbn [scalarValue] in Hv;
    try (by rewrite ParseBool_FormatBool);
    try (by rewrite parse_format; cbn; rewrite ?Hv);
    try match goal with
        | |- context [wrap_signed (Bits ?t)] =>
            destruct (wrap_signed_inRange t n) as [Hw Hr]; [done..|];
            rewrite (ParseInt_FormatInt n Hr); cbn in Hw |- *; by rewrite Hw
        | |- context [wrap_unsigned (Bits ?t)] =>
            destruct (wrap_unsigned_inRange t n) as [Hw Hr]; [done..|];
            rewrite (ParseUint_FormatUint n Hr); cbn in Hw |- *; by rewrite Hw
        end.
Qed.

Lemma mapM_convert_format elem (l : list (value F)) :
  scalar elem = true -> Forall (scalarValue elem) l ->
  mapM (convert elem) (formatScalar P <$> l) = Some l.
Proof.
  intros Hsc Hl. apply mapM_Some. apply Forall2_fmap_l.
  apply Forall_Forall2_diag. eapply Forall_impl; [done|].
  intros v Hv. by apply convert_format.
Qed.

(** ** One field of a section *)

(** The property that [s.get] finds for a field whose property, if the
    encoder emitted one, is the first of its name in the section. *)
Lemma decodeField_plain s sf v :
  plainField P sf v ->
  assoc (name_of sf) (props s) = snd <$> encodeProperty P sf v ->
  decodeField specLookups (decodeSlice specLookups) s sf (Zero F (Type_ sf))
  = (v, Return None).
Proof.
  intros [Hskip Hplain] Hassoc.
  assert (section_get specLookups s (name_of sf)
          = inl (default (newProperty (name_of sf))
                   (snd <$> encodeProperty P sf v))) as Hget.
  { cbn [section_get specLookups]. by rewrite Hassoc. }
  clear Hassoc.
  unfold encodeProperty in Hget. rewrite Hskip in Hget.
  destruct (Type_ sf) as [| | | | | | | | | | | | | |elem|key elem| | |] eqn:Ht;
    try (destruct Hplain as (Hsc & _); discriminate Hsc).
  15: { (* slices *)
    destruct v as [| | | | |[l|]| | | |];
      try (destruct Hplain as (Hsc & _); discriminate Hsc).
    - destruct Hplain as (Hsc & Hne & Hl). destruct l as [|x l]; [done|].
      rewrite Hsc in Hget.
      pose proof (decodeField_slice F specLookups s sf (VSlice None) elem _
                    Ht Hsc Hskip Hget) as Hstep.
      assert (property_get specLookups
                (default (newProperty (name_of sf))
                   (snd <$> Some (name_of sf,
                      mkProperty (name_of sf)
                        {["" := formatScalar P <$> x :: l]}))) ""
              = formatScalar P x :: (formatScalar P <$> l)) as Hraws.
      { cbn [property_get specLookups vals fmap option_fmap option_map snd
             default from_option id]. by rewrite lookup_singleton_eq. }
      cbv zeta in Hstep. rewrite Hraws in Hstep.
      pose proof (mapM_convert_format elem (x :: l) Hsc Hl) as Hm.
      rewrite fmap_cons in Hm. by rewrite Hm in Hstep.
    - pose proof (decodeField_slice F specLookups s sf (VSlice None) elem _
                    Ht Hplain Hskip Hget) as Hstep.
      by cbn in Hstep. }
  15: { (* maps *)
    destruct v as [| | | | | |[m|]| | |];
      try (destruct Hplain as (Hsc & _); discriminate Hsc).
    destruct Hplain as (-> & Hsc & Hm).
    assert (section_get specLookups s (name_of sf)
            = inl (mkProperty (name_of sf) ((fun x => [formatScalar P x]) <$> m)))
      as Hget'.
    { rewrite Hget, Hsc. cbn [andb]. case_bool_decide as Hsz; [|done].
      apply map_size_empty_iff in Hsz. subst m. cbn.
      by rewrite fmap_empty. }
    destruct (decodeMap_scalar F
                (mkProperty (name_of sf) ((fun x => [formatScalar P x]) <$> m))
                elem (VMap None) Hsc) as (m' & Hdec & Hm').
    { intros k raws. cbn [vals]. rewrite lookup_fmap.
      destruct (m !! k) as [x|] eqn:Hk; [|done]. intros [= <-]. cbn.
      rewrite (convert_format elem x Hsc); [done|]. by eapply Hm. }
    unfold decodeField. unfold skipped in Hskip. fold (name_of sf).
    rewrite Hskip, Ht, Hget'. cbn [Kind Elem fmap option_fmap option_map].
    assert (m' = m) as ->.
    { apply map_eq. intros k. rewrite Hm'. cbn [vals]. rewrite lookup_fmap.
      destruct (m !! k) as [x|] eqn:Hk; [|done]. cbn.
      apply (convert_format elem x Hsc). by eapply Hm. }
    cbn [Zero]. rewrite Hdec. by destruct elem. }
  all: cbv zeta in Hplain; destruct Hplain as (_ & Hv & Horigin & Hopt).
  all: assert (Type_ sf = string_ -> Name sf <> "ININame") as Hname
         by (intros Ht'; unfold isOriginName in Horigin; rewrite Ht' in Horigin;
             by apply String.eqb_neq).
  all: rewrite <- Ht;
       rewrite (decodeField_scalar F specLookups _ s sf _
                  ltac:(by rewrite Ht) Hskip Hname);
       fold (name_of sf); rewrite Hget, Ht.
  all: cbn [scalar andb]; rewrite Horigin; cbn [negb andb].
  all: destruct (Omitempty sf && isZero P v) eqn:Hom;
       cbn [negb fmap option_fmap option_map default from_option id snd];
       unfold bindScalar.
  all: try (apply andb_true_iff in Hom as [Hom Hz]; rewrite (Hopt Hom Hz);
            by cbn).
  all: cbn [vals property_get specLookups];
    rewrite map_size_singleton, lookup_singleton_eq;
    cbn [default from_option id];
    rewrite bool_decide_eq_false_2 by done.
  all: match goal with
       | |- context [convert ?t _] => by rewrite (convert_format t v eq_refl Hv)
       end.
Qed.



(** ** The properties of an encoded record *)

Lemma encodeProperty_key sf v kp :
  encodeProperty P sf v = Some kp -> kp.1 = name_of sf.
Proof.
  unfold encodeProperty. destruct (skipped specLookups sf); [done|].
  destruct (Type_ sf), v; try done;
    repeat match goal with
           | |- context [if ?b then _ else _] => destruct b
           | |- context [match ?l with [] => _ | _ :: _ => _ end] => destruct l
           | |- context [match ?o with Some _ => _ | None => _ end] => destruct o
           end; try done; by intros [= <-].
Qed.

Lemma assoc_encodeProperties_None k fields vs :
  k ∉ name_of <$> fields -> assoc k (encodeProperties P fields vs) = None.
Proof.
  revert vs. induction fields as [|sf fields IH]; intros [|v vs] Hk; try done.
  rewrite fmap_cons in Hk. apply not_elem_of_cons in Hk as [Hne Hk].
  unfold encodeProperties. cbn [zip zip_with omap list_omap].
  destruct (encodeProperty P sf v) as [[k' p]|] eqn:He.
  - apply encodeProperty_key in He. simpl in He. subst k'. cbn [assoc].
    destruct (String.eqb_spec k (name_of sf)); [done|]. by apply IH.
  - by apply IH.
Qed.

Lemma assoc_encodeProperties fields vs j sf v :
  NoDup (name_of <$> fields) ->
  fields !! j = Some sf -> vs !! j = Some v ->
  assoc (name_of sf) (encodeProperties P fields vs) = snd <$> encodeProperty P sf v.
Proof.
  revert vs j. induction fields as [|sf0 fields IH]; intros [|v0 vs] j Hnd;
    try done.
  rewrite fmap_cons in Hnd. apply NoDup_cons in Hnd as [Hk0 Hnd].
  unfold encodeProperties. cbn [zip zip_with omap list_omap].
  fold (encodeProperties P fields vs).
  destruct j as [|j]; cbn [lookup list_lookup].
  - intros [= <-] [= <-].
    destruct (encodeProperty P sf0 v0) as [[k' p]|] eqn:He.
    + apply encodeProperty_key in He. simpl in He. subst k'. cbn [assoc].
      by rewrite String.eqb_refl.
    + by apply assoc_encodeProperties_None.
  - intros Hsf Hv.
    assert (name_of sf <> name_of sf0) as Hne.
    { intros Heq. apply Hk0. rewrite <- Heq.
      apply list_elem_of_fmap. exists sf. split; [done|].
      by eapply list_elem_of_lookup_2. }
    destruct (encodeProperty P sf0 v0) as [[k' p]|] eqn:He.
    + apply encodeProperty_key in He. simpl in He. subst k'. cbn [assoc].
      destruct (String.eqb_spec (name_of sf) (name_of sf0)); [done|].
      by eapply IH.
    + by eapply IH.
Qed.

(** ** A record bound from a section *)

Lemma forFields_pointwise step fields (zs vs : list (value F)) :
  length zs = length vs ->
  Forall2 (fun sf zv => step sf zv.1 = (zv.2, Return None)) fields (zip zs vs) ->
  forFields step fields zs = (vs, Return None).
Proof.
  revert zs vs. induction fields as [|sf fields IH]; intros [|z zs] [|v vs] Hlen;
    try done; cbn [zip zip_with].
  - intros Hall. by apply Forall2_nil_inv_l in Hall.
  - intros Hall. apply Forall2_cons_1 in Hall as [Hstep Hall].
    cbn [forFields]. simpl in Hstep. rewrite Hstep.
    rewrite (IH zs vs); [done| |done]. by injection Hlen.
Qed.

Lemma decode_plainRecord nm fields vs :
  plainRecord P fields vs ->
  forFields (decodeField specLookups (decodeSlice specLookups)
               (mkSection nm (encodeProperties P fields vs)))
    fields ((fun sf => Zero F (Type_ sf)) <$> fields)
  = (vs, Return None).
Proof.
  intros [Hplain Hnd]. apply forFields_pointwise.
  { rewrite length_fmap. by eapply Forall2_length. }
  apply Forall2_same_length_lookup_2.
  { rewrite length_zip, length_fmap. apply Forall2_length in Hplain. lia. }
  intros j sf [z v] Hsf Hzv. apply lookup_zip_with_Some in Hzv
    as (z' & v' & [= <- <-] & Hz & Hv).
  rewrite list_lookup_fmap, Hsf in Hz. injection Hz as <-. cbn [fst snd].
  apply decodeField_plain.
  - by eapply Forall2_lookup_lr.
  - cbn [props]. by eapply assoc_encodeProperties.
Qed.

(** ** The sections of an encoded record *)

Lemma assoc_addSection n s groups :
  assoc n (addSection s groups)
  = if String.eqb (name s) n then Some (default [] (assoc n groups) ++ [s])
    else assoc n groups.
Proof.
  induction groups as [|[n' g] groups IH]; cbn [addSection assoc].
  - rewrite String.eqb_sym. by destruct (String.eqb (name s) n).
  - destruct (String.eqb_spec (name s) n') as [Hs|Hs]; cbn [assoc].
    + subst n'. rewrite (String.eqb_sym n).
      by destruct (String.eqb (name s) n).
    + destruct (String.eqb_spec n n') as [->|Hn].
      * by rewrite (proj2 (String.eqb_neq _ _) Hs).
      * apply IH.
Qed.

Lemma assoc_addSections n ss groups :
  (forall s, s ∈ ss -> name s <> n) ->
  assoc n (foldl (fun groups s => addSection s groups) groups ss) = assoc n groups.
Proof.
  revert groups. induction ss as [|s ss IH]; intros groups Hne; [done|].
  cbn [foldl]. rewrite IH by (intros s' Hs'; apply Hne; by right).
  rewrite assoc_addSection.
  by rewrite (proj2 (String.eqb_neq _ _) (Hne s ltac:(by left))).
Qed.

Lemma elem_of_concat {A} (x : A) (ls : list (list A)) :
  x ∈ concat ls -> exists l, x ∈ l /\ l ∈ ls.
Proof.
  induction ls as [|l ls IH]; cbn [concat].
  - intros Hx. by apply elem_of_nil in Hx.
  - intros [Hx|Hx]%elem_of_app.
    + exists l. split; [done|by left].
    + destruct (IH Hx) as (l' & Hl' & Hin). exists l'. split; [done|by right].
Qed.

Lemma originName_plain inner ws :
  Forall2 (plainField P) inner ws -> originName inner ws = None.
Proof.
  induction 1 as [|sf v inner ws [_ Hplain] _ IH]; [done|].
  cbn [originName]. destruct v; try done.
  assert (isOriginName sf = false) as ->; [|done].
  destruct (Type_ sf); try (by destruct Hplain as (? & ? & ? & ?)).
Qed.

(** The sections a top-level field emits carry its name; a plain field
    emits none and a nested record emits its one section. *)
Lemma encodeSections_top sf v :
  topField P sf v ->
  (forall s, s ∈ encodeSections P sf v -> name s = name_of sf) /\
  (Kind (Type_ sf) = reflect.Struct ->
   exists inner ws, Type_ sf = StructOf inner /\ v = VStruct ws /\
     plainRecord P inner ws /\
     encodeSections P sf v
     = [mkSection (name_of sf) (encodeProperties P inner ws)]).
Proof.
  intros [[Hskip Hplain]|(Hskip & _ & inner & ws & Ht & -> & Hrec)].
  - assert (encodeSections P sf v = [] /\ Kind (Type_ sf) <> reflect.Struct)
      as [-> Hk].
    { unfold encodeSections. rewrite Hskip.
      destruct (Type_ sf) as [| | | | | | | | | | | | | |elem| | | |];
        try (by destruct Hplain as (? & ? & ? & ?)).
      destruct v as [| | | | |[l|]| | | |];
        try (by destruct Hplain as (? & ? & ? & ?)).
      - destruct Hplain as (Hsc & _). by destruct elem.
      - by destruct elem.
      - done. }
    split; [|done]. intros s Hs. by apply elem_of_nil in Hs.
  - assert (encodeSections P sf (VStruct ws)
            = [mkSection (name_of sf) (encodeProperties P inner ws)]) as ->.
    { unfold encodeSections, encodeRecord. rewrite Hskip, Ht.
      by rewrite (originName_plain inner ws (proj1 Hrec)). }
    split.
    + by intros s ->%list_elem_of_singleton.
    + intros _. by exists inner, ws.
Qed.

Lemma assoc_encodeSections fields vs j sf v :
  Forall2 (topField P) fields vs -> NoDup (name_of <$> fields) ->
  fields !! j = Some sf -> vs !! j = Some v ->
  Kind (Type_ sf) = reflect.Struct ->
  forall groups, assoc (name_of sf) groups = None ->
  assoc (name_of sf)
    (foldl (fun groups s => addSection s groups) groups
       (concat (zip_with (encodeSections P) fields vs)))
  = Some (encodeSections P sf v).
Proof.
  intros Htop. revert j. induction Htop as [|sf0 v0 fields vs Hf0 Htop IH];
    intros j Hnd Hsf Hv Hk groups Hfresh; [done|].
  rewrite fmap_cons in Hnd. apply NoDup_cons in Hnd as [Hk0 Hnd].
  cbn [zip_with concat]. rewrite foldl_app.
  destruct (encodeSections_top sf0 v0 Hf0) as [Hnames Hstruct].
  destruct j as [|j]; cbn [lookup list_lookup] in Hsf, Hv.
  - injection Hsf as ->. injection Hv as ->.
    destruct (Hstruct Hk) as (inner & ws & _ & _ & _ & Hsec).
    rewrite assoc_addSections.
    + rewrite Hsec. cbn [foldl]. rewrite assoc_addSection. cbn [name].
      by rewrite String.eqb_refl, Hfresh.
    + intros s [s' [Hs' Hin]]%elem_of_concat Heq.
      apply elem_of_lookup_zip_with in Hin as (i & sf' & v' & -> & Hsf' & Hv').
      destruct (encodeSections_top sf' v'
                  (Forall2_lookup_lr _ _ _ _ _ _ Htop Hsf' Hv')) as [Hn' _].
      apply Hk0. rewrite <- Heq, (Hn' s Hs').
      apply list_elem_of_fmap. exists sf'. split; [done|].
      by eapply list_elem_of_lookup_2.
  - assert (name_of sf <> name_of sf0) as Hne.
    { intros Heq. apply Hk0. rewrite <- Heq.
      apply list_elem_of_fmap. exists sf. split; [done|].
      by eapply list_elem_of_lookup_2. }
    eapply IH; [done..|].
    rewrite assoc_addSections; [done|].
    intros s Hs Heq. apply Hne. by rewrite <- Heq, (Hnames s Hs).
Qed.

(** ** The whole record *)

Lemma Zero_struct fields :
  Zero F (StructOf fields) = VStruct ((fun sf => Zero F (Type_ sf)) <$> fields).
Proof. reflexivity. Qed.

Lemma decodeSection_plain L tree sf v :
  plainField P sf v -> decodeSection L tree sf v = (v, Return None).
Proof.
  intros [_ Hplain]. unfold decodeSection.
  destruct (String.eqb _ "-"); [done|].
  destruct (Type_ sf) as [| | | | | | | | | | | | | |elem| | | |];
    cbn [Kind]; try done;
    try (by destruct Hplain as (? & ? & ? & ?)).
  assert (scalar elem = true) as Hsc.
  { destruct v as [| | | | |[l|]| | | |];
      first [done | by destruct Hplain as (? & ?)]. }
  cbn [Kind Elem fmap option_fmap option_map]. by destruct elem.
Qed.

Lemma plainField_not_struct sf v :
  plainField P sf v -> Kind (Type_ sf) <> reflect.Struct.
Proof.
  intros [_ Hplain] Hk.
  destruct (Type_ sf) as [| | | | | | | | | | | | | | | | | |[]]; try done.
  by destruct Hplain as (? & ? & ? & ?).
Qed.


End RoundTrip.

(** * Closed instances *)

Lemma decodeStruct_slice_of_scalars_witness :
  property_get specLookups (mkProperty "Port" {[ "" := ["80"; "443"] ]}) ""
  = ["80"; "443"] /\
  (decodeStruct specLookups (of_section Sample.ports)
     (Addr (StructOf Sample.portsType) (VStruct Sample.portsZero))).2
  = Return None /\
  exists vs' elems,
    (decodeStruct specLookups (of_section Sample.ports)
       (Addr (StructOf Sample.portsType) (VStruct Sample.portsZero))).1
    = Addr (StructOf Sample.portsType) (VStruct vs') /\
    vs' !! 0%nat = Some (VSlice (Some elems)) /\ length elems = 2%nat.
Proof.
  split; [reflexivity|]. split; [reflexivity|].
  destruct (decodeStruct_slice_of_scalars textFloats specLookups Sample.ports
              Sample.portsType Sample.portsZero 0 (field "Port" (SliceOf int))
              (VSlice None) int (mkProperty "Port" {[ "" := ["80"; "443"] ]})
              eq_refl eq_refl eq_refl eq_refl eq_refl eq_refl)
    as (vs' & Hrv & _ & Hn & _).
  destruct Hn as (elems & Hj & Hlen & _); [done|reflexivity|].
  by exists vs', elems.
Defined.

(** C2 (the code at the failing input).  A key that occurs twice, bound
    to a field of kind int: decodeStruct returns no error and stores the
    first of the two values. *)
Theorem duplicate_key_binds_first :
  decodeStruct specLookups (of_section Sample.twoPorts)
    (Addr (StructOf [field "Port" int]) (VStruct [VInt 0]) : V)
  = (Addr (StructOf [field "Port" int]) (VStruct [VInt 143]), Return None).
Proof. reflexivity. Qed.

(** C4 (the code at the failing input).  A map whose elements are
    slices: the switch of decodeMap has no case for them, so the field
    stays nil and decodeStruct returns an UnmarshalTypeError. *)
Theorem map_of_slices_is_refused :
  decodeStruct specLookups (of_section Sample.sizes)
    (Addr (StructOf Sample.sizesType) (VStruct [VMap None]) : V)
  = (Addr (StructOf Sample.sizesType) (VStruct [VMap None]),
     Return (Some (TypeError
       (mkError "<ini.property Value>" (MapOf string_ (SliceOf string_)))))).
Proof. reflexivity. Qed.

(** C5 (the code at the failing input).  A map field without any
    property: decodeStruct returns no error, but the field is no longer
    the nil map, the zero value of its type. *)
Theorem absent_map_is_allocated :
  Zero textFloats (MapOf string_ int) = VMap None /\
  decodeStruct specLookups (of_section Sample.empty)
    (Addr (StructOf Sample.intSizesType) (VStruct [VMap None]) : V)
  = (Addr (StructOf Sample.intSizesType) (VStruct [VMap (Some ∅)]),
     Return None).
Proof. split; reflexivity. Qed.

(** C8 (the code at the failing input).  300 does not fit an int8:
    decodeInt parses it with 64 bits, returns no error and stores
    int8(300) = 44. *)
Theorem decodeInt_truncates :
  strconv.ParseInt "300" = Some 300 /\ inRange int8 300 = false /\
  decodeInt (of_string "300") (Addr int8 (VInt 0) : V)
  = (Addr int8 (VInt 44), Return None).
Proof. repeat split; reflexivity. Qed.



Lemma decode_nested_record_witness :
  parseTree_get specLookups Sample.twoDatabases "Database"
  = inl [Sample.primary; Sample.replica] /\
  exists vs',
    (decode specLookups Sample.twoDatabases
       (Addr (StructOf [Sample.databaseField])
          (VStruct [VStruct [VString ""]]) : V)).1
    = Addr (StructOf [Sample.databaseField]) (VStruct vs') /\
    vs' !! 0%nat = Some (VStruct [VString "a"]).
Proof.
  split; [reflexivity|].
  destruct (decode_nested_record textFloats specLookups Sample.twoDatabases
              [Sample.databaseField] [VStruct [VString ""]] 0
              Sample.databaseField (VStruct [VString ""])
              [Sample.primary; Sample.replica]
              eq_refl eq_refl eq_refl eq_refl eq_refl)
    as (vs' & Hrv & _ & Hfirst).
  exists vs'. split; [done|].
  destruct (Hfirst Sample.primary [Sample.replica] eq_refl) as [_ Hj].
  by rewrite Hj.
Defined.

Lemma ININame_only_for_strings_witness :
  section_get specLookups Sample.labelled "ININame"
  = inl (mkProperty "ININame" {[ "" := ["x"] ]}) /\
  fieldName specLookups Sample.originField = "Label" /\
  decodeField (F:=textFloats) specLookups (decodeSlice specLookups)
    Sample.labelled Sample.originField (VString "")
  = (VString "Database", Return None).
Proof.
  split; [reflexivity|]. split; [reflexivity|].
  destruct (ININame_only_for_strings textFloats specLookups
              (decodeSlice specLookups) Sample.labelled Sample.originField
              (VString "") eq_refl eq_refl) as [Hstring _].
  by apply Hstring.
Defined.

(** TestMarshal of encode_test.go: the encoder modelled from the
    specification produces the bytes the test wants. *)
Example TestMarshal :
  render (encode textFormat Sample.testType Sample.testInput) = Sample.testWant.
Proof. vm_compute. reflexivity. Qed.



(** The map-style property of section 8 of the specification:
    [size[small]=1] and [size[large]=2] into a map of integers give
    exactly the two entries. *)
Example map_style_property :
  exists m',
    decodeMap (of_property Sample.sizeProperty)
      (Addr (MapOf string_ int) (VMap None) : V)
    = (Addr (MapOf string_ int) (VMap (Some m')), Return None) /\
    m' !! "small" = Some (VInt 1) /\ m' !! "large" = Some (VInt 2) /\
    forall k, k <> "small" -> k <> "large" -> m' !! k = None.
Proof.
  destruct (decodeMap_scalar textFloats Sample.sizeProperty int (VMap None)
              eq_refl) as (m' & Hdec & Hm').
  { intros k raws Hk. cbn [vals Sample.sizeProperty list_to_map foldr] in Hk.
    destruct (decide (k = "small")) as [->|Hs].
    - rewrite lookup_insert_eq in Hk. by injection Hk as <-.
    - rewrite lookup_insert_ne in Hk by done.
      destruct (decide (k = "large")) as [->|Hl].
      + rewrite lookup_insert_eq in Hk. by injection Hk as <-.
      + by rewrite lookup_insert_ne in Hk. }
  exists m'. split; [done|]. split_and!.
  - by rewrite Hm'.
  - by rewrite Hm'.
  - intros k Hs Hl. rewrite Hm'.
    cbn [vals Sample.sizeProperty list_to_map foldr].
    by rewrite !lookup_insert_ne.
Qed.

Lemma decodeInt_decodeUint_outcomes_witness :
  decodeInt (of_string "143") (Addr int (VInt 0) : V)
  = (Addr int (VInt 143), Return None) /\
  decodeUint (of_string "abc") (Addr uint8 (VUint 7) : V)
  = (Addr uint8 (VUint 7), Return (Some (TypeError (mkError "abc" (PtrTo uint8))))).
Proof.
  split.
  - by apply (proj1 (decodeInt_decodeUint_outcomes textFloats int "143" (VInt 0))).
  - by apply (proj2 (decodeInt_decodeUint_outcomes textFloats uint8 "abc" (VUint 7))).
Defined.

Lemma decode_not_pointer_to_struct_witness :
  decode specLookups Sample.twoDatabases (Val int (VInt 0) : V)
  = (Val int (VInt 0),
     Return (Some (TypeError (mkError "<ini.parseTree Value>" int)))) /\
  decode specLookups Sample.twoDatabases (Addr int (VInt 0) : V)
  = (Addr int (VInt 0),
     Return (Some (TypeError (mkError "<ini.parseTree Value>" int)))).
Proof.
  split.
  - by apply (proj1 (decode_not_pointer_to_struct textFloats specLookups
                       Sample.twoDatabases int (VInt 0))).
  - by apply (proj2 (decode_not_pointer_to_struct textFloats specLookups
                       Sample.twoDatabases int (VInt 0))).
Defined.

Lemma decodeMap_one_entry_per_key_witness :
  exists m',
    decodeMap (of_property (mkProperty "Size" {[ "small" := ["1"] ]}))
      (Addr (MapOf string_ int) (VMap None) : V)
    = (Addr (MapOf string_ int) (VMap (Some m')), Return None) /\
    m' !! "small" = Some (VInt 1).
Proof.
  destruct (decodeMap_one_entry_per_key textFloats
              (mkProperty "Size" {[ "small" := ["1"] ]}) int (VMap None)
              eq_refl) as (m' & Hdec & Hm').
  { intros k raws Hk. cbn [vals] in Hk.
    apply lookup_singleton_Some in Hk as [_ <-]. by eexists. }
  exists m'. split; [done|]. by rewrite Hm'.
Defined.

Lemma scalar_field_takes_first_value_witness :
  property_get specLookups (mkProperty "Port" {[ "" := ["143"; "993"] ]}) ""
  = ["143"; "993"] /\
  decodeField (F:=textFloats) specLookups (decodeSlice specLookups)
    Sample.twoPorts (field "Port" int) (VInt 0)
  = (VInt 143, Return None).
Proof.
  split; [reflexivity|].
  by apply (scalar_field_takes_first_value textFloats specLookups
              (decodeSlice specLookups) Sample.twoPorts (field "Port" int)
              (VInt 0) (mkProperty "Port" {[ "" := ["143"; "993"] ]})
              "143" ["993"] (VInt 143)).
Defined.

Lemma field_without_values_witness :
  decodeField (F:=textFloats) specLookups (decodeSlice specLookups)
    Sample.empty (field "Size" (MapOf string_ int)) (VMap None)
  = (VMap (Some ∅), Return None) /\
  decodeField (F:=textFloats) specLookups (decodeSlice specLookups)
    Sample.empty (field "Size" int) (VInt 7)
  = (VInt 7, Return None).
Proof.
  destruct (field_without_values textFloats specLookups
              (decodeSlice specLookups) Sample.empty
              (field "Size" (MapOf string_ int)) (VMap None)
              (newProperty "Size") eq_refl eq_refl eq_refl eq_refl)
    as (_ & _ & Hmap).
  destruct (field_without_values textFloats specLookups
              (decodeSlice specLookups) Sample.empty
              (field "Size" int) (VInt 7)
              (newProperty "Size") eq_refl eq_refl eq_refl eq_refl)
    as (Hscalar & _ & _).
  split.
  - by apply (Hmap int).
  - by apply Hscalar.
Defined.

(** * Closed instances of the further properties *)


Lemma decode_collection_of_records_witness :
  parseTree_get specLookups Sample.twoDatabases "Database"
  = inl [Sample.primary; Sample.replica] /\
  exists vs' elems,
    (decode specLookups Sample.twoDatabases
       (Addr (StructOf [Input.databasesField]) (VStruct [VSlice None]) : V)).1
    = Addr (StructOf [Input.databasesField]) (VStruct vs') /\
    vs' !! 0%nat = Some (VSlice (Some elems)) /\ length elems = 2%nat.
Proof.
  split; [reflexivity|].
  destruct (decode_collection_of_records textFloats specLookups
              Sample.twoDatabases [Input.databasesField] [VSlice None] 0
              Input.databasesField (VSlice None) Sample.serverType
              [Sample.primary; Sample.replica]
              eq_refl eq_refl eq_refl eq_refl eq_refl eq_refl)
    as (vs' & Hrv & _ & Hsome).
  destruct Hsome as [_ Hok]; [discriminate|].
  destruct Hok as (elems & Hj & Hall); [reflexivity|].
  exists vs', elems. split; [exact Hrv|]. split; [exact Hj|].
  symmetry. exact (Forall2_length _ _ _ Hall).
Defined.

Lemma fields_never_bound_witness :
  (exists vs',
     (decodeStruct specLookups (of_section Input.guarded)
        (Addr (StructOf Input.guardedType) (VStruct Input.guardedValues))).1
     = Addr (StructOf Input.guardedType) (VStruct vs') /\
     vs' !! 2%nat = Some (VStruct [VString "old"])) /\
  (exists vs',
     (decode specLookups Input.guardedTree
        (Addr (StructOf Input.guardedType) (VStruct Input.guardedValues))).1
     = Addr (StructOf Input.guardedType) (VStruct vs') /\
     vs' !! 0%nat = Some (VString "keep")).
Proof.
  split.
  - apply (proj1 (fields_never_bound textFloats specLookups Input.guardedTree
                    Input.guarded Input.guardedType Input.guardedValues 2
                    (field "Inner" Sample.serverType) (VStruct [VString "old"])
                    eq_refl eq_refl)).
    right. left. reflexivity.
  - apply (proj2 (fields_never_bound textFloats specLookups Input.guardedTree
                    Input.guarded Input.guardedType Input.guardedValues 0
                    (mkField "Secret" (Some "-") false string_) (VString "keep")
                    eq_refl eq_refl)).
    left. reflexivity.
Defined.

Lemma plain_field_bound_from_globals_witness :
  parseTree_get specLookups Input.shadowed "Port"
  = inl [mkSection "Port" [plain "Port" ["1"]]] /\
  exists vs',
    (decode specLookups Input.shadowed
       (Addr (StructOf Input.portType) (VStruct [VInt 0]) : V)).1
    = Addr (StructOf Input.portType) (VStruct vs') /\
    vs' !! 0%nat = Some (VInt 143).
Proof.
  split; [reflexivity|].
  destruct (plain_field_bound_from_globals textFloats specLookups
              Input.shadowed Input.portType [VInt 0] 0 (field "Port" int)
              (VInt 0) eq_refl eq_refl)
    as (vs' & Hrv & _ & Hok).
  - discriminate.
  - discriminate.
  - exists vs'. split; [exact Hrv|].
    destruct Hok as [Hj _]; [reflexivity|]. exact Hj.
Defined.

Lemma keyed_property_on_scalar_field_panics_witness :
  decodeField (F:=textFloats) specLookups (decodeSlice specLookups)
    Input.keyedPort (field "Port" int) (VInt 0)
  = (VInt 0, Panic) /\
  (decodeStruct specLookups (of_section Input.keyedPort)
     (Addr (StructOf Input.portType) (VStruct [VInt 0]) : V)).2
  <> Return None.
Proof.
  apply (keyed_property_on_scalar_field_panics textFloats specLookups
           Input.keyedPort Input.portType [VInt 0] 0 (field "Port" int)
           (VInt 0) (mkProperty "Port" (list_to_map [("a", ["1"])]))).
  - reflexivity.
  - reflexivity.
  - reflexivity.
  - reflexivity.
  - discriminate.
  - reflexivity.
  - vm_compute. discriminate.
  - reflexivity.
Defined.

Lemma decoders_refuse_what_they_cannot_take_witness :
  decodeInt (of_string "1") (Val int (VInt 0) : V)
  = (Val int (VInt 0), Return (Some (TypeError (mkError "1" int)))) /\
  decodeString (of_strings ["a"]) (Addr string_ (VString "old") : V)
  = (Addr string_ (VString "old"),
     Return (Some (TypeError (mkError "<[]string Value>" (PtrTo string_))))).
Proof.
  split.
  - refine (Forall_lookup_1 _ _ 1 _
              (proj1 (decoders_refuse_what_they_cannot_take textFloats
                        specLookups (of_string "1") int (VInt 0)) _) eq_refl).
    discriminate.
  - refine (Forall_lookup_1 _ _ 0 _
              (proj1 (proj2 (decoders_refuse_what_they_cannot_take textFloats
                               specLookups (of_strings ["a"]) (PtrTo string_)
                               (VPtr (Some (VString "old"))))) _) eq_refl).
    discriminate.
Defined.

Lemma failed_decoder_stores_nothing_witness :
  (decodeSlice specLookups (of_strings ["80"; "abc"])
     (Addr (SliceOf int) (VSlice (Some [VInt 7])) : V)).2
  = Return (Some (TypeError (mkError "abc" (PtrTo int)))) /\
  (decodeSlice specLookups (of_strings ["80"; "abc"])
     (Addr (SliceOf int) (VSlice (Some [VInt 7])) : V)).1
  = Addr (SliceOf int) (VSlice (Some [VInt 7])).
Proof.
  split; [reflexivity|].
  refine (Forall_lookup_1 _ _ 6 _
            (failed_decoder_stores_nothing textFloats specLookups
               (of_strings ["80"; "abc"])
               (Addr (SliceOf int) (VSlice (Some [VInt 7])))) eq_refl _).
  discriminate.
Defined.

Lemma errors_are_accounted_for_witness :
  (exists te, TypeError (mkError "abc" (PtrTo int)) = TypeError te) \/
  fromLookup specLookups (TypeError (mkError "abc" (PtrTo int))).
Proof.
  apply (proj1 (errors_are_accounted_for textFloats specLookups
                  Sample.frameTree (of_section Sample.primary)
                  (Addr (StructOf Sample.frameType) (VStruct Sample.frameZero)))).
  reflexivity.
Defined.



Lemma decodeMap_order_is_irrelevant_witness :
  decodeEntries (F:=textFloats) decodeInt string_ int
    [("b", ["2"]); ("a", ["1"])] ∅
  = decodeEntries decodeInt string_ int [("a", ["1"]); ("b", ["2"])] ∅.
Proof.
  refine (proj2 (decodeMap_order_is_irrelevant textFloats decodeInt string_ int
                   [("a", ["1"]); ("b", ["2"])] [("b", ["2"]); ("a", ["1"])] ∅
                   _ _) _).
  - apply perm_swap.
  - apply (bool_decide_unpack _). vm_compute. exact I.
  - reflexivity.
Defined.

Lemma omitempty_is_ignored_witness :
  tag_omitempty (newTag Input.omitemptyLookups (field "Port" int)) = true /\
  tag_omitempty (newTag specLookups (field "Port" int)) = false /\
  decode Input.omitemptyLookups Input.shadowed
    (Addr (StructOf Input.portType) (VStruct [VInt 0]) : V)
  = decode specLookups Input.shadowed
      (Addr (StructOf Input.portType) (VStruct [VInt 0])).
Proof.
  split; [reflexivity|]. split; [reflexivity|].
  apply (proj1 (omitempty_is_ignored textFloats specLookups
                  Input.omitemptyLookups Input.shadowed
                  (of_section Sample.primary)
                  (Addr (StructOf Input.portType) (VStruct [VInt 0]))
                  (fun _ _ => eq_refl) (fun _ _ => eq_refl)
                  (fun _ _ => eq_refl) (fun _ => eq_refl))).
Defined.


Lemma decode_succeeds_iff_every_field_does_witness :
  (decode specLookups Input.shadowed
     (Addr (StructOf Input.portType) (VStruct [VInt 0]) : V)).2 = Return None /\
  (decodeField (F:=textFloats) specLookups (decodeSlice specLookups)
     (global Input.shadowed) (field "Port" int) (VInt 0)).2 = Return None /\
  (decodeSection (F:=textFloats) specLookups Input.shadowed
     (field "Port" int) (VInt 0)).2 = Return None.
Proof.
  split; [reflexivity|].
  destruct (proj1 (proj2 (decode_succeeds_iff_every_field_does textFloats
                            specLookups Input.shadowed Sample.primary
                            Input.portType [VInt 0])) eq_refl) as [HG HS].
  split.
  - exact (HG 0%nat (field "Port" int) (VInt 0) eq_refl eq_refl).
  - exact (HS 0%nat (field "Port" int) (VInt 0) eq_refl eq_refl).
Defined.
